(** * chatterbytebackend: message extraction, inbox fetch and account store

    A shallow embedding of the two server variants of the repository
    ([src/unnamed/part_000], the multi-account variant that keeps
    [connectedAccounts] in memory, and [src/index.js], the session
    variant).  Both share the function [fetchEmails]; the account store
    only exists in the multi-account variant.

    JavaScript values are modelled by their shape in the Gmail API:
    an object field that the code reads through [?.] or [||] is an
    [option]; [undefined] is [None]. *)

From Stdlib Require Import String Ascii List NArith Lia.
From stdpp Require Import base option list strings.
Import ListNotations.

Local Open Scope string_scope.
Local Open Scope list_scope.

(** ** JavaScript operators used by the source *)

Module Js.

(** [x === s] for a possibly undefined string [x] and a string [s]. *)
Definition strict_eq (x : option string) (s : string) : bool :=
  match x with
  | Some v => String.eqb v s
  | None => false
  end.

(** Truthiness of a possibly undefined string: [undefined] and the empty
    string are falsy, every other string is truthy. *)
Definition truthy (x : option string) : bool :=
  match x with
  | Some v => negb (String.eqb v "")
  | None => false
  end.

(** [x || d] on strings. *)
Definition or_else (x : option string) (d : string) : string :=
  match x with
  | Some v => if String.eqb v "" then d else v
  | None => d
  end.

(** [xs.find(p)]: the first element satisfying [p], or [undefined]. *)
Definition find {A} (p : A -> bool) (xs : list A) : option A :=
  List.find p xs.

End Js.

(** ** Data model *)

(** One entry of [payload.headers]. *)
Record Header := mkHeader {
  name : string;
  value : option string
}.

(** [part.body] and [payload.body]: only the field [data] is read. *)
Record Body := mkBody {
  data : option string
}.

(** One entry of [payload.parts]. *)
Record Part := mkPart {
  mimeType : option string;
  body : option Body
}.

(** [msgDetail.data.payload]; the code never reads its [mimeType]. *)
Record Payload := mkPayload {
  payload_mimeType : option string;
  headers : option (list Header);
  parts : option (list Part);
  payload_body : option Body
}.

(** [msgDetail.data], the answer of [gmail.users.messages.get]. *)
Record MsgDetail := mkMsgDetail {
  payload : option Payload;
  detail_snippet : option string
}.

(** The object literal returned by the callback of [fetchEmails]. *)
Record MessageRecord := mkMessageRecord {
  subject : string;
  from : string;
  date : string;
  snippet : string;
  textPlain : string;
  textHtml : string
}.

(** ** Base64 decoding of the Node.js runtime

    [Buffer.from(s, 'base64').toString('utf-8')] belongs to the runtime, not
    to the repository, so the extractor below takes the decoder as a
    parameter.  [Base64.decode] is an executable instance of it, used to
    evaluate the extractor on concrete messages: characters outside both
    base64 alphabets are skipped, decoding stops at the first [=], and a
    string is the sequence of its UTF-8 bytes.  Bytes that are not valid
    UTF-8 are kept as they are, where the runtime puts U+FFFD in their
    place; the runs below decode ASCII text only, and no theorem depends
    on this instance. *)

Module Base64.

Definition unbase64 (c : ascii) : option N :=
  let n := N_of_ascii c in
  if (65 <=? n)%N && (n <=? 90)%N then Some (n - 65)%N
  else if (97 <=? n)%N && (n <=? 122)%N then Some (n - 71)%N
  else if (48 <=? n)%N && (n <=? 57)%N then Some (n + 4)%N
  else if (n =? 43)%N || (n =? 45)%N then Some 62%N
  else if (n =? 47)%N || (n =? 95)%N then Some 63%N
  else None.

Fixpoint sextets (s : string) : list N :=
  match s with
  | EmptyString => []
  | String c rest =>
      if Ascii.eqb c "="%char then []
      else match unbase64 c with
           | Some v => v :: sextets rest
           | None => sextets rest
           end
  end.

Definition byte (n : N) : ascii := ascii_of_N (n mod 256).

Fixpoint octets (l : list N) : string :=
  match l with
  | a :: b :: c :: d :: rest =>
      String (byte (a * 4 + b / 16))
        (String (byte ((b mod 16) * 16 + c / 4))
           (String (byte ((c mod 4) * 64 + d)) (octets rest)))
  | [a; b; c] =>
      String (byte (a * 4 + b / 16))
        (String (byte ((b mod 16) * 16 + c / 4)) EmptyString)
  | [a; b] => String (byte (a * 4 + b / 16)) EmptyString
  | _ => EmptyString
  end.

Definition decode (s : string) : string := octets (sextets s).

End Base64.

(** ** Message extractor: the callback of [fetchEmails] after the [await] *)

Section Extractor.

(** [decode d] stands for [Buffer.from(d, 'base64').toString('utf-8')]. *)
Variable decode : string -> string.

(** [b?.data]. *)
Definition body_data (b : option Body) : option string :=
  match b with
  | Some b' => data b'
  | None => None
  end.

(** [b?.data] when it is truthy, the only case in which it is decoded. *)
Definition truthy_data (b : option Body) : option string :=
  if Js.truthy (body_data b) then body_data b else None.

(** [headers.find(h => h.name === name)?.value || ""]. *)
Definition getHeader (hs : list Header) (nm : string) : string :=
  Js.or_else
    (match Js.find (fun h => String.eqb (name h) nm) hs with
     | Some h => value h
     | None => None
     end) "".

(** One iteration of [for (const part of payload.parts)]; the state is the
    pair of the variables [textPlain] and [textHtml]. *)
Definition scan_part (acc : string * string) (part : Part) : string * string :=
  let '(tp, th) := acc in
  let tp' :=
    if Js.strict_eq (mimeType part) "text/plain" then
      match truthy_data (body part) with
      | Some d => decode d
      | None => tp
      end
    else tp in
  let th' :=
    if Js.strict_eq (mimeType part) "text/html" then
      match truthy_data (body part) with
      | Some d => decode d
      | None => th
      end
    else th in
  (tp', th').

Definition scan_parts (ps : list Part) : string * string :=
  fold_left scan_part ps ("", "").

(** The [if (msgDetail.data.payload) { ... }] block. *)
Definition bodies (d : MsgDetail) : string * string :=
  match payload d with
  | None => ("", "")
  | Some pl =>
      match parts pl with
      | Some (p :: ps) => scan_parts (p :: ps)
      | _ =>
          match truthy_data (payload_body pl) with
          | Some b => (decode b, "")
          | None => ("", "")
          end
      end
  end.

(** [msgDetail.data.payload?.headers || []]. *)
Definition detail_headers (d : MsgDetail) : list Header :=
  match payload d with
  | Some pl => match headers pl with Some hs => hs | None => [] end
  | None => []
  end.

Definition extract (d : MsgDetail) : MessageRecord :=
  let hs := detail_headers d in
  let '(tp, th) := bodies d in
  {| subject := Js.or_else (Some (getHeader hs "Subject")) "(No Subject)";
     from := getHeader hs "From";
     date := getHeader hs "Date";
     snippet := Js.or_else (detail_snippet d) "";
     textPlain := tp;
     textHtml := th |}.

(** *** Reference descriptions of the extraction

    The definitions below are not taken from the code: they say which part
    and which header an extraction is expected to pick, and the theorems
    compare [extract] with them. *)

(** The part carries a body for the MIME type [mime]: its type is [mime]
    and its body data is truthy. *)
Definition carries (mime : string) (p : Part) : bool :=
  Js.strict_eq (mimeType p) mime && Js.truthy (body_data (body p)).

(** The decoded body of a part; a part without body data has no text. *)
Definition part_text (p : Part) : string :=
  match body_data (body p) with
  | Some d => decode d
  | None => ""
  end.

(** The last part of type [mime] that carries body data. *)
Definition last_carrying (mime : string) (ps : list Part) : option Part :=
  last (List.filter (carries mime) ps).

(** The last part of type [mime], whether it carries body data or not, and
    the text it would give: the reading of the part scan in which the MIME
    type alone decides. *)
Definition last_of_type (mime : string) (ps : list Part) : option Part :=
  last (List.filter (fun p => Js.strict_eq (mimeType p) mime) ps).

Definition last_of_type_text (mime : string) (ps : list Part) : string :=
  from_option part_text "" (last_of_type mime ps).

(** [found] is the first header of [hs] named exactly [nm], or [None] when
    no header of [hs] has that name. *)
Definition first_match (hs : list Header) (nm : string)
    (found : option Header) : Prop :=
  match found with
  | Some h =>
      exists pre post,
        hs = pre ++ h :: post /\ name h = nm /\
        Forall (fun h' => name h' <> nm) pre
  | None => Forall (fun h' => name h' <> nm) hs
  end.

(** The value of a looked-up header, [default] when the header is absent or
    its value is empty. *)
Definition header_or (found : option Header) (default : string) : string :=
  match found with
  | Some h => Js.or_else (value h) default
  | None => default
  end.

End Extractor.

(** ** Promises

    [Promise.all] is part of the language.  Its model follows the
    language's algorithm: one slot per input promise, written by index when
    that promise fulfils, a counter of the promises still awaited, and a
    result that is settled once.  The order in which the input promises
    complete is an explicit schedule, a list of positions. *)

Module Promise.

Inductive state (E A : Type) : Type :=
| Pending
| Rejected (e : E)
| Fulfilled (v : A).

Arguments Pending {E A}.
Arguments Rejected {E A} e.
Arguments Fulfilled {E A} v.

(** A promise is settled at most once: later attempts are ignored. *)
Definition settle {E A} (cur new : state E A) : state E A :=
  match cur with
  | Pending => new
  | _ => cur
  end.

Record all_state (E A : Type) : Type := mkAll {
  values : list (option A);
  remaining : nat;
  outcome : state E (list (option A))
}.

Arguments mkAll {E A} values remaining outcome.
Arguments values {E A} a.
Arguments remaining {E A} a.
Arguments outcome {E A} a.

Section All.

Context {E A : Type}.

(** [Promise.all] of [n] promises before any of them completes; of an
    empty array it is fulfilled at once with the empty array. *)
Definition all_init (n : nat) : all_state E A :=
  mkAll (replicate n None) n
        (if Nat.eqb n 0 then Fulfilled [] else Pending).

(** The promise at position [i] completes; [ps] gives what each input
    promise completes with. *)
Definition all_step (ps : list (E + A)) (st : all_state E A) (i : nat)
  : all_state E A :=
  match ps !! i with
  | Some (inr v) =>
      let vs := <[i := Some v]> (values st) in
      let r := remaining st - 1 in
      mkAll vs r
            (settle (outcome st)
                    (if Nat.eqb r 0 then Fulfilled vs else Pending))
  | Some (inl e) =>
      mkAll (values st) (remaining st) (settle (outcome st) (Rejected e))
  | None => st
  end.

Definition all_run (ps : list (E + A)) (sched : list nat) : all_state E A :=
  fold_left (all_step ps) sched (all_init (length ps)).

(** [await Promise.all(ps)] when the promises complete in the order
    [sched]. *)
Definition all (ps : list (E + A)) (sched : list nat)
  : state E (list (option A)) :=
  outcome (all_run ps sched).

End All.

End Promise.

(** ** Inbox fetcher: [fetchEmails] *)

(** One entry of [res.data.messages]. *)
Record MsgRef := mkMsgRef {
  id : string
}.

(** The Gmail client built from an authenticated handle: what
    [gmail.users.messages.list] answers ([inl] is a rejection, [None] an
    answer without the field [messages]) and what [gmail.users.messages.get]
    answers for each message id. *)
Record Gmail (Err : Type) : Type := mkGmail {
  messages_list : Err + option (list MsgRef);
  messages_get : string -> Err + MsgDetail
}.

Arguments mkGmail {Err} messages_list messages_get.
Arguments messages_list {Err} g.
Arguments messages_get {Err} g _.

(** The messages a fetch resolves with: one slot per listed message. *)
Abbreviation Messages := (list (option MessageRecord)).

Section Fetcher.

Context {Err : Type}.
Variable decode : string -> string.

(** The [async msg => { ... }] callback: the detail fetch, then the
    extraction. *)
Definition fetch_one (g : Gmail Err) (msg : MsgRef) : Err + MessageRecord :=
  match messages_get g (id msg) with
  | inl e => inl e
  | inr d => inr (extract decode d)
  end.

(** [fetchEmails(oauth2Client)]; [sched] is the order in which the detail
    fetches complete. *)
Definition fetchEmails (g : Gmail Err) (sched : list nat)
  : Promise.state Err Messages :=
  match messages_list g with
  | inl e => Promise.Rejected e
  | inr None => Promise.Fulfilled []
  | inr (Some msgs) => Promise.all (map (fetch_one g) msgs) sched
  end.

End Fetcher.

(** ** Account store (multi-account variant): [connectedAccounts] *)

Record Account (Tokens : Type) : Type := mkAccount {
  email : string;
  tokens : Tokens;
  messages : Messages
}.

Arguments mkAccount {Tokens} email tokens messages.
Arguments email {Tokens} a.
Arguments tokens {Tokens} a.
Arguments messages {Tokens} a.

(** What a handler of the store answers. *)
Inductive Response : Type :=
| JsonAccounts (accounts : list (string * Messages))
| JsonSuccess
| Status500
| NoResponse.

Section Store.

Context {Tokens Err : Type}.
Variable decode : string -> string.

Local Abbreviation Store := (list (Account Tokens)).

(** The Gmail client obtained from a credential, and the completion order
    of its detail fetches. *)
Variable client : Tokens -> Gmail Err.
Variable order : Tokens -> list nat.

(** The guarded [push] of the OAuth callback. *)
Definition upsertIfAbsent (e : string) (t : Tokens) (ms : Messages)
    (store : Store) : Store :=
  match Js.find (fun acc => String.eqb (email acc) e) store with
  | Some _ => store
  | None => store ++ [mkAccount e t ms]
  end.

(** The handler of [DELETE /api/emails/:email]. *)
Definition removeByEmail (emailToDelete : string) (store : Store) : Store :=
  List.filter (fun acc => negb (String.eqb (email acc) emailToDelete)) store.

Definition delete_handler (emailToDelete : string) (store : Store)
  : Store * Response :=
  (removeByEmail emailToDelete store, JsonSuccess).

(** [listAll]: the collection as it is. *)
Definition listAll (store : Store) : Store := store.

(** The [for (const account of connectedAccounts)] loop of
    [GET /api/emails], when no other request is served during its awaits:
    the array it walks is then the store throughout.  [refresh_live] below
    is the loop with the store operations of other requests in between. *)
Fixpoint refresh_loop (accounts : Store)
    (updatedAccounts : list (string * Messages))
  : Promise.state Err (list (string * Messages)) :=
  match accounts with
  | [] => Promise.Fulfilled updatedAccounts
  | account :: rest =>
      match fetchEmails decode (client (tokens account))
                        (order (tokens account)) with
      | Promise.Fulfilled ms =>
          refresh_loop rest (updatedAccounts ++ [(email account, ms)])
      | Promise.Rejected e => Promise.Rejected e
      | Promise.Pending => Promise.Pending
      end
  end.

(** The handler of [GET /api/emails]: the store after it, and the
    answer. *)
Definition refreshAndListAll (store : Store) : Store * Response :=
  (store,
   match refresh_loop store [] with
   | Promise.Fulfilled updatedAccounts => JsonAccounts updatedAccounts
   | Promise.Rejected _ => Status500
   | Promise.Pending => NoResponse
   end).

(** The operations of the store and the states they reach. *)
Inductive Op : Type :=
| OpUpsert (e : string) (t : Tokens) (ms : Messages)
| OpRemove (e : string)
| OpRefresh.

Definition apply_op (o : Op) (store : Store) : Store :=
  match o with
  | OpUpsert e t ms => upsertIfAbsent e t ms store
  | OpRemove e => removeByEmail e store
  | OpRefresh => fst (refreshAndListAll store)
  end.

Inductive reachable : Store -> Prop :=
| reachable_empty : reachable []
| reachable_step o store :
    reachable store -> reachable (apply_op o store).

(** At most one account per email. *)
Definition unique_emails (store : Store) : Prop :=
  NoDup (map email store).

End Store.

(** The state of [Promise.all] over fulfilling promises after the positions
    [pre] have completed: a slot is filled exactly when its position is in
    [pre]. *)
Definition all_inv {E A : Type} (vs : list A) (pre : list nat)
    (st : Promise.all_state E A) : Prop :=
  (forall i, Promise.values st !! i =
             (fun v => if decide (i ∈ pre) then Some v else None) <$> vs !! i) /\
  Promise.remaining st = length vs - length pre /\
  Promise.outcome st =
    if Nat.ltb (length pre) (length vs) then Promise.Pending
    else Promise.Fulfilled (Promise.values st).

(** ** Sample provider answers

    Concrete messages and mailboxes on which the definitions are run. *)

Definition sample_plain (d : string) : Part :=
  mkPart (Some "text/plain") (Some (mkBody (Some d))).

Definition sample_html (d : string) : Part :=
  mkPart (Some "text/html") (Some (mkBody (Some d))).

(** A text attachment: its type is text/plain and its body, held by
    reference, carries no data. *)
Definition sample_attachment : Part :=
  mkPart (Some "text/plain") (Some (mkBody None)).

Definition sample_headers : list Header :=
  [ mkHeader "subject" (Some "lower case");
    mkHeader "From" (Some "first@example.com");
    mkHeader "From" (Some "second@example.com");
    mkHeader "Subject" (Some "") ].

Definition sample_multipart (ps : list Part) : MsgDetail :=
  mkMsgDetail
    (Some (mkPayload (Some "multipart/mixed") (Some sample_headers)
                     (Some ps) None))
    (Some "preview").

(** A message without parts whose payload is of type text/html. *)
Definition sample_single : MsgDetail :=
  mkMsgDetail
    (Some (mkPayload (Some "text/html") None None
                     (Some (mkBody (Some "PGI+aGk8L2I+")))))
    None.

Definition sample_two_plain : list Part :=
  [ sample_plain "aGk="; sample_html "PGI+aGk8L2I+"; sample_plain "aGVsbG8=" ].

Definition sample_with_attachment : list Part :=
  [ sample_plain "aGVsbG8="; sample_attachment ].

Definition sample_msgs : list MsgRef :=
  [ mkMsgRef "m1"; mkMsgRef "m2"; mkMsgRef "m3" ].

Definition sample_details : list MsgDetail :=
  [ sample_multipart sample_two_plain; sample_single;
    sample_multipart sample_with_attachment ].

(** A mailbox of three messages whose detail fetches all succeed. *)
Definition sample_gmail : Gmail string :=
  mkGmail (inr (Some sample_msgs))
    (fun i =>
       if String.eqb i "m1" then inr (sample_multipart sample_two_plain)
       else if String.eqb i "m2" then inr sample_single
       else if String.eqb i "m3"
            then inr (sample_multipart sample_with_attachment)
       else inl "not found").

(** The same mailbox when the detail fetches of [m2] and [m3] fail. *)
Definition sample_gmail_failing : Gmail string :=
  mkGmail (inr (Some sample_msgs))
    (fun i =>
       if String.eqb i "m1" then inr (sample_multipart sample_two_plain)
       else if String.eqb i "m2" then inl "quota"
       else inl "timeout").

Definition sample_account (e : string) : Account string :=
  mkAccount e ("token of " ++ e)%string [].

Definition sample_store : list (Account string) :=
  [ sample_account "a@example.com"; sample_account "b@example.com" ].

Definition sample_client (t : string) : Gmail string := sample_gmail.

Definition sample_order (t : string) : list nat := [1; 0; 2].

Definition sample_fetched : Messages :=
  map (fun d => Some (extract Base64.decode d)) sample_details.

(** ** HTTP surface

    The route handlers of both variants.  A handler takes the request and
    the state it works on (the account store, or the [user] field of the
    session) and yields the state after it and what it does with [res]. *)

(** [s.includes(sub)]. *)
Fixpoint includes (s sub : string) : bool :=
  if String.prefix sub s then true
  else match s with
       | EmptyString => false
       | String _ rest => includes rest sub
       end.

(** What a handler reads of [req]: [req.query.code] and
    [req.headers.host]. *)
Record Request := mkRequest {
  query_code : option string;
  host : option string
}.

(** [req.headers.host?.includes("localhost") ||
     req.headers.host?.includes("127.0.0.1")], as a condition. *)
Definition isLocal (req : Request) : bool :=
  match host req with
  | Some h => includes h "localhost" || includes h "127.0.0.1"
  | None => false
  end.

(** What a handler does with [res]: [res.status(s).send(text)],
    [res.status(s).json({ error })], [res.json(accounts)],
    [res.redirect(url)], or nothing when an awaited call hangs. *)
Inductive Reply : Type :=
| Send (status : nat) (text : string)
| SendError (status : nat) (error : string)
| SendAccounts (accounts : list (string * Messages))
| Redirect (url : string)
| NoReply.

(** The identity provider: [oauth2Client.getToken(code)] and
    [oauth2.userinfo.get()] with the credential set, which gives the email
    of the account. *)
Record OAuth (Tokens Err : Type) : Type := mkOAuth {
  getToken : string -> Err + Tokens;
  userinfo_get : Tokens -> Err + string
}.

Arguments mkOAuth {Tokens Err} getToken userinfo_get.
Arguments getToken {Tokens Err} o _.
Arguments userinfo_get {Tokens Err} o _.

(** [req.session.user] of the session variant. *)
Record SessionUser (Tokens : Type) : Type := mkSessionUser {
  user_email : string;
  user_tokens : Tokens
}.

Arguments mkSessionUser {Tokens} user_email user_tokens.
Arguments user_email {Tokens} s.
Arguments user_tokens {Tokens} s.

(** [frontendRedirect]. *)
Definition frontendRedirect (req : Request) : string :=
  if isLocal req then "http://localhost:5173/inbox"
  else "https://chatterbytefrontend.vercel.app/inbox".

Section Handlers.

Context {Tokens Err : Type}.
Variable decode : string -> string.
Variable oauth : OAuth Tokens Err.
Variable client : Tokens -> Gmail Err.
Variable order : Tokens -> list nat.

(** [GET /api/auth/google/callback] of the multi-account variant. *)
Definition callback_handler (req : Request) (store : list (Account Tokens))
  : list (Account Tokens) * Reply :=
  match query_code req with
  | None => (store, Send 400 "Missing authorization code.")
  | Some code =>
      if String.eqb code "" then (store, Send 400 "Missing authorization code.")
      else
        match getToken oauth code with
        | inl _ => (store, Send 500 "Authentication failed.")
        | inr tokens =>
            match userinfo_get oauth tokens with
            | inl _ => (store, Send 500 "Authentication failed.")
            | inr email =>
                match fetchEmails decode (client tokens) (order tokens) with
                | Promise.Rejected _ =>
                    (store, Send 500 "Authentication failed.")
                | Promise.Pending => (store, NoReply)
                | Promise.Fulfilled messages =>
                    (upsertIfAbsent email tokens messages store,
                     Redirect (frontendRedirect req))
                end
            end
        end
  end.

(** [GET /api/auth/google/callback] of the session variant. *)
Definition session_callback_handler (req : Request)
    (user : option (SessionUser Tokens))
  : option (SessionUser Tokens) * Reply :=
  match query_code req with
  | None => (user, Send 400 "Missing authorization code.")
  | Some code =>
      if String.eqb code "" then (user, Send 400 "Missing authorization code.")
      else
        match getToken oauth code with
        | inl _ => (user, Send 500 "Authentication failed.")
        | inr tokens =>
            match userinfo_get oauth tokens with
            | inl _ => (user, Send 500 "Authentication failed.")
            | inr email =>
                (Some (mkSessionUser email tokens),
                 Redirect (frontendRedirect req))
            end
        end
  end.

(** [GET /api/emails] of the session variant. *)
Definition session_emails_handler (user : option (SessionUser Tokens))
  : Reply :=
  match user with
  | None => SendError 401 "Not logged in"
  | Some u =>
      match fetchEmails decode (client (user_tokens u))
                        (order (user_tokens u)) with
      | Promise.Fulfilled messages =>
          SendAccounts [(user_email u, messages)]
      | Promise.Rejected _ => SendError 500 "Failed to fetch emails"
      | Promise.Pending => NoReply
      end
  end.

End Handlers.

(** ** [GET /api/emails] while other requests are served

    The loop of the handler awaits one fetch per account, and during each
    await the server may run the store operations of other requests.  The
    loop walks the array that [connectedAccounts] held when the loop
    started.  The push of an OAuth callback extends that array as long as
    the variable still holds it; the [filter] of [DELETE] makes the
    variable hold a new array, and from then on pushes no longer reach the
    array being walked. *)

Inductive StoreEvent (Tokens : Type) : Type :=
| EvUpsert (e : string) (t : Tokens) (ms : Messages)
| EvRemove (e : string).

Arguments EvUpsert {Tokens} e t ms.
Arguments EvRemove {Tokens} e.

(** The array being walked and the array held by [connectedAccounts]: one
    and the same array, or two arrays. *)
Inductive LiveStore (Tokens : Type) : Type :=
| Shared (store : list (Account Tokens))
| Detached (walked_array store : list (Account Tokens)).

Arguments Shared {Tokens} store.
Arguments Detached {Tokens} walked_array store.

Definition walked {Tokens : Type} (st : LiveStore Tokens)
  : list (Account Tokens) :=
  match st with
  | Shared store => store
  | Detached walked_array _ => walked_array
  end.

Definition current {Tokens : Type} (st : LiveStore Tokens)
  : list (Account Tokens) :=
  match st with
  | Shared store => store
  | Detached _ store => store
  end.

(** One store operation of another request, run during an await of the
    loop. *)
Definition apply_event {Tokens : Type} (st : LiveStore Tokens)
    (ev : StoreEvent Tokens) : LiveStore Tokens :=
  match ev, st with
  | EvUpsert e t ms, Shared store => Shared (upsertIfAbsent e t ms store)
  | EvUpsert e t ms, Detached walked_array store =>
      Detached walked_array (upsertIfAbsent e t ms store)
  | EvRemove e, Shared store => Detached store (removeByEmail e store)
  | EvRemove e, Detached walked_array store =>
      Detached walked_array (removeByEmail e store)
  end.


Section LiveRefresh.

Context {Tokens Err : Type}.
Variable decode : string -> string.
Variable client : Tokens -> Gmail Err.
Variable order : Tokens -> list nat.

(** The loop of [GET /api/emails] from position [i] of the walked array on.
    The head of [evs] holds the operations run during the await of this
    iteration; the position is read before that await and the next one
    after it.  When [evs] is empty no further operation interleaves and the
    rest of the walk is [refresh_loop].  The result is the store at the
    time the loop ends, and what the loop ends with. *)
Fixpoint refresh_live (evs : list (list (StoreEvent Tokens))) (i : nat)
    (st : LiveStore Tokens) (updatedAccounts : list (string * Messages))
  : list (Account Tokens) * Promise.state Err (list (string * Messages)) :=
  match evs with
  | [] =>
      (current st,
       refresh_loop decode client order (drop i (walked st)) updatedAccounts)
  | during :: evs' =>
      match walked st !! i with
      | None => (current st, Promise.Fulfilled updatedAccounts)
      | Some account =>
          let st' := fold_left apply_event during st in
          match fetchEmails decode (client (tokens account))
                            (order (tokens account)) with
          | Promise.Fulfilled ms =>
              refresh_live evs' (S i) st'
                           (updatedAccounts ++ [(email account, ms)])
          | Promise.Rejected e => (current st', Promise.Rejected e)
          | Promise.Pending => (current st', Promise.Pending)
          end
      end
  end.

(** The handler of [GET /api/emails] when the operations [evs] of other
    requests run during its awaits. *)
Definition refreshAndListAll_live (evs : list (list (StoreEvent Tokens)))
    (store : list (Account Tokens)) : list (Account Tokens) * Response :=
  (fst (refresh_live evs 0 (Shared store) []),
   match snd (refresh_live evs 0 (Shared store) []) with
   | Promise.Fulfilled updatedAccounts => JsonAccounts updatedAccounts
   | Promise.Rejected _ => Status500
   | Promise.Pending => NoResponse
   end).

End LiveRefresh.

(** A callback connects a third account and a [DELETE] removes the first
    one, both during the first await of the loop. *)
Definition sample_interleaving : list (list (StoreEvent string)) :=
  [ [ EvUpsert "c@example.com" "token of c@example.com" [];
      EvRemove "a@example.com" ] ].

(** ** Invariant of [Promise.all] over arbitrary promises *)

(** The promise at position [i] fulfils. *)
Definition fulfils {E A : Type} (ps : list (E + A)) (i : nat) : bool :=
  match ps !! i with
  | Some (inr _) => true
  | _ => false
  end.

(** The slot of a promise once the positions [pre] have completed. *)
Definition slot {E A : Type} (pre : list nat) (i : nat) (o : E + A)
  : option A :=
  match o with
  | inr v => if decide (i ∈ pre) then Some v else None
  | inl _ => None
  end.

(** After the distinct positions [pre] have completed: the slots of the
    fulfilled ones are filled, the counter has gone down by their number,
    and a fulfilled result means that every promise has completed and
    fulfilled, with its value in its slot. *)
Definition all_gen_inv {E A : Type} (ps : list (E + A)) (pre : list nat)
    (st : Promise.all_state E A) : Prop :=
  (forall i, Promise.values st !! i = slot pre i <$> ps !! i) /\
  Promise.remaining st =
    length ps - length (List.filter (fulfils ps) pre) /\
  (forall vs, Promise.outcome st = Promise.Fulfilled vs ->
     length vs = length ps /\
     forall i o, ps !! i = Some o ->
       i ∈ pre /\ exists v, o = inr v /\ vs !! i = Some (Some v)).

(** ** More sample data *)

(** A message whose text sits in a nested multipart: its only part is a
    multipart/alternative container. *)
Definition sample_container : Part :=
  mkPart (Some "multipart/alternative") (Some (mkBody (Some "aGVsbG8="))).

Definition sample_nested_payload : Payload :=
  mkPayload (Some "multipart/mixed") None (Some [sample_container])
            (Some (mkBody (Some "aGk="))).

Definition sample_nested : MsgDetail :=
  mkMsgDetail (Some sample_nested_payload) None.

(** A mailbox whose list call answers with an empty array. *)
Definition sample_gmail_empty : Gmail string :=
  mkGmail (inr (Some [])) (fun _ => inl "unused").

Definition sample_oauth : OAuth string string :=
  mkOAuth
    (fun code => if String.eqb code "expired" then inl "invalid_grant"
                 else inr ("token for " ++ code)%string)
    (fun t => if String.eqb t "token for nobody" then inl "no profile"
              else inr "a@example.com").

Definition sample_request : Request :=
  mkRequest (Some "4/abc") (Some "localhost:5000").

Definition sample_request_deployed : Request :=
  mkRequest (Some "4/abc") (Some "chatterbytebackend.vercel.app").

Definition sample_failing_client (t : string) : Gmail string :=
  if String.eqb t "token of b@example.com" then sample_gmail_failing
  else sample_gmail.

(** * Properties *)

(** ** Message extractor *)

Section ExtractorFacts.

Variable decode : string -> string.

Lemma truthy_data_Some b d :
  truthy_data b = Some d <-> body_data b = Some d /\ d <> "".
Proof.
  unfold truthy_data, Js.truthy.
  destruct (body_data b) as [v|];
    [|split; [discriminate | intros [? _]; discriminate]].
  destruct (String.eqb_spec v ""); simpl; split.
  - discriminate.
  - intros [[= ->] ?]; contradiction.
  - intros [= ->]; auto.
  - intros [? _]; assumption.
Qed.

Lemma truthy_data_carries b :
  Js.truthy (body_data b) = true ->
  exists d, truthy_data b = Some d /\ body_data b = Some d.
Proof.
  intros H. unfold truthy_data. rewrite H.
  destruct (body_data b) as [d|]; [eauto | discriminate].
Qed.

Lemma truthy_data_None b :
  truthy_data b = None <-> Js.truthy (body_data b) = false.
Proof.
  unfold truthy_data.
  destruct (Js.truthy (body_data b)) eqn:E; split; try done.
  destruct (body_data b); [discriminate | done].
Qed.

Lemma scan_parts_snoc ps p :
  scan_parts decode (ps ++ [p]) = scan_part decode (scan_parts decode ps) p.
Proof. unfold scan_parts. by rewrite fold_left_app. Qed.

(** The variable of the scan that belongs to [mime] after one more part. *)
Lemma last_carrying_snoc mime ps p :
  last_carrying mime (ps ++ [p]) =
  if carries mime p then Some p else last_carrying mime ps.
Proof.
  unfold last_carrying. rewrite List.filter_app. simpl.
  destruct (carries mime p).
  - apply last_snoc.
  - by rewrite app_nil_r.
Qed.

Lemma scan_component mime p cur :
  (if Js.strict_eq (mimeType p) mime
   then match truthy_data (body p) with
        | Some d => decode d
        | None => cur
        end
   else cur) =
  if carries mime p then part_text decode p else cur.
Proof.
  unfold carries, part_text.
  destruct (Js.strict_eq (mimeType p) mime); simpl; [|done].
  destruct (Js.truthy (body_data (body p))) eqn:E.
  - destruct (truthy_data_carries _ E) as (d & -> & ->). done.
  - apply truthy_data_None in E. by rewrite E.
Qed.

(** The scan computes, for each of the two types, the text of the last part
    of that type that carries body data. *)
Lemma scan_parts_last ps :
  scan_parts decode ps =
  (from_option (part_text decode) "" (last_carrying "text/plain" ps),
   from_option (part_text decode) "" (last_carrying "text/html" ps)).
Proof.
  induction ps as [|p ps IH] using rev_ind; [done|].
  rewrite scan_parts_snoc, IH, !last_carrying_snoc.
  unfold scan_part. rewrite !scan_component.
  by destruct (carries "text/plain" p), (carries "text/html" p).
Qed.

Lemma extract_bodies d :
  (textPlain (extract decode d), textHtml (extract decode d)) = bodies decode d.
Proof. unfold extract. by destruct (bodies decode d). Qed.

Lemma bodies_parts d pl ps :
  payload d = Some pl -> parts pl = Some ps -> ps <> [] ->
  bodies decode d = scan_parts decode ps.
Proof.
  intros Hd Hp Hne. unfold bodies. rewrite Hd, Hp.
  by destruct ps.
Qed.

Lemma extract_parts d pl ps :
  payload d = Some pl -> parts pl = Some ps -> ps <> [] ->
  textPlain (extract decode d) =
    from_option (part_text decode) "" (last_carrying "text/plain" ps) /\
  textHtml (extract decode d) =
    from_option (part_text decode) "" (last_carrying "text/html" ps).
Proof.
  intros Hd Hp Hne.
  pose proof (extract_bodies d) as Hb.
  rewrite (bodies_parts d pl ps Hd Hp Hne), scan_parts_last in Hb.
  by injection Hb.
Qed.

Lemma last_of_type_snoc mime ps p :
  last_of_type mime (ps ++ [p]) =
  if Js.strict_eq (mimeType p) mime then Some p else last_of_type mime ps.
Proof.
  unfold last_of_type. rewrite List.filter_app. simpl.
  destruct (Js.strict_eq (mimeType p) mime).
  - apply last_snoc.
  - by rewrite app_nil_r.
Qed.

(** When the last part of a type carries body data, it is also the last
    part of that type that carries body data. *)
Lemma last_of_type_carrying mime ps p :
  last_of_type mime ps = Some p ->
  Js.truthy (body_data (body p)) = true ->
  last_carrying mime ps = Some p.
Proof.
  induction ps as [|q ps IH] using rev_ind; [done|].
  rewrite last_of_type_snoc, last_carrying_snoc. unfold carries.
  destruct (Js.strict_eq (mimeType q) mime); simpl.
  - intros [= ->] ->. done.
  - auto.
Qed.

(** A part without body data does not count, whatever its type. *)
Lemma last_carrying_skip mime pre p post :
  Js.truthy (body_data (body p)) = false ->
  last_carrying mime (pre ++ p :: post) = last_carrying mime (pre ++ post).
Proof.
  intros H. unfold last_carrying. rewrite !List.filter_app. simpl.
  unfold carries at 2. rewrite H, andb_false_r. done.
Qed.

(** *** Header lookup *)

Lemma find_first_match (pre post : list Header) h nm :
  Forall (fun h' => name h' <> nm) pre -> name h = nm ->
  Js.find (fun h' => String.eqb (name h') nm) (pre ++ h :: post) = Some h.
Proof.
  intros Hpre Hh. unfold Js.find.
  induction Hpre as [|h' pre Hne _ IH]; simpl.
  - by rewrite (proj2 (String.eqb_eq _ _) Hh).
  - by rewrite (proj2 (String.eqb_neq _ _) Hne).
Qed.

Lemma find_no_match (hs : list Header) nm :
  Forall (fun h' => name h' <> nm) hs ->
  Js.find (fun h' => String.eqb (name h') nm) hs = None.
Proof.
  intros Hhs. unfold Js.find.
  induction Hhs as [|h' hs Hne _ IH]; simpl; [done|].
  by rewrite (proj2 (String.eqb_neq _ _) Hne).
Qed.

Lemma getHeader_first_match hs nm found :
  first_match hs nm found -> getHeader hs nm = header_or found "".
Proof.
  unfold getHeader. destruct found as [h|]; simpl.
  - intros (pre & post & -> & Hh & Hpre).
    by rewrite (find_first_match pre post h nm Hpre Hh).
  - intros Hhs. by rewrite (find_no_match hs nm Hhs).
Qed.

(** Every lookup has an answer: a first header of that name, or none. *)
Lemma first_match_total hs nm : exists found, first_match hs nm found.
Proof.
  induction hs as [|h hs [found IH]].
  - exists None. constructor.
  - destruct (String.eqb_spec (name h) nm) as [Heq|Hne].
    + exists (Some h), [], hs. auto.
    + destruct found as [h'|]; simpl in IH.
      * destruct IH as (pre & post & -> & Hh & Hpre).
        exists (Some h'), (h :: pre), post. auto.
      * exists None. constructor; auto.
Qed.

Lemma or_else_default (v : option string) (dflt : string) :
  Js.or_else (Some (Js.or_else v "")) dflt = Js.or_else v dflt.
Proof.
  destruct v as [s|]; simpl; [|done].
  destruct (String.eqb_spec s ""); simpl; [done|].
  by rewrite (proj2 (String.eqb_neq _ _) n).
Qed.

End ExtractorFacts.

Section ExtractorClaims.

Variable decode : string -> string.

(** C1 (amended): for a message detail whose payload has a non-empty parts
    list, [textPlain] is the decoded body of the last part of type
    text/plain that carries non-empty body data (the empty string when there
    is none), and independently [textHtml] is the decoded body of the last
    part of type text/html that carries non-empty body data.  In particular,
    when the last text/plain (text/html) part carries body data, its decoded
    body is the extracted [textPlain] ([textHtml]). *)
Theorem last_part_with_data_wins d pl p ps :
  payload d = Some pl -> parts pl = Some (p :: ps) ->
  textPlain (extract decode d) =
    from_option (part_text decode) "" (last_carrying "text/plain" (p :: ps)) /\
  textHtml (extract decode d) =
    from_option (part_text decode) "" (last_carrying "text/html" (p :: ps)) /\
  (forall q, last_of_type "text/plain" (p :: ps) = Some q ->
             Js.truthy (body_data (body q)) = true ->
             textPlain (extract decode d) = part_text decode q) /\
  (forall q, last_of_type "text/html" (p :: ps) = Some q ->
             Js.truthy (body_data (body q)) = true ->
             textHtml (extract decode d) = part_text decode q).
Proof.
  intros Hd Hp.
  destruct (extract_parts decode d pl (p :: ps) Hd Hp) as [Hplain Hhtml];
    [done|].
  repeat split; try assumption.
  - intros q Hq Hdata.
    by rewrite Hplain, (last_of_type_carrying _ _ _ Hq Hdata).
  - intros q Hq Hdata.
    by rewrite Hhtml, (last_of_type_carrying _ _ _ Hq Hdata).
Qed.

(** C2: for a message detail whose payload has no parts (the field is
    absent or the list is empty), [textHtml] is the empty string and
    [textPlain] is the decoded top-level body data when that data is
    present and non-empty, the empty string otherwise; the MIME type of the
    payload plays no role. *)
Theorem no_parts_top_level_body d pl :
  payload d = Some pl -> parts pl = None \/ parts pl = Some [] ->
  textHtml (extract decode d) = "" /\
  textPlain (extract decode d) =
    from_option decode "" (truthy_data (payload_body pl)).
Proof.
  intros Hd Hp.
  pose proof (extract_bodies decode d) as Hb.
  unfold bodies in Hb. rewrite Hd in Hb.
  assert (Hb' : (textPlain (extract decode d), textHtml (extract decode d)) =
                match truthy_data (payload_body pl) with
                | Some b => (decode b, "")
                | None => ("", "")
                end)
    by (destruct Hp as [Hp|Hp]; rewrite Hp in Hb; exact Hb).
  destruct (truthy_data (payload_body pl)); injection Hb' as -> ->; done.
Qed.

(** C3: header lookup is an exact, case-sensitive match on the header name
    in which the first match wins; [from] and [date] are the value of the
    header found, the empty string when the header is absent, and [subject]
    is the literal "(No Subject)" when the Subject header is absent or its
    value is empty. *)
Theorem header_lookup_first_match d fs ff fd :
  first_match (detail_headers d) "Subject" fs ->
  first_match (detail_headers d) "From" ff ->
  first_match (detail_headers d) "Date" fd ->
  subject (extract decode d) = header_or fs "(No Subject)" /\
  from (extract decode d) = header_or ff "" /\
  date (extract decode d) = header_or fd "".
Proof.
  intros Hs Hf Hd.
  apply getHeader_first_match in Hs, Hf, Hd.
  unfold extract. destruct (bodies decode d) as [tp th]. simpl.
  rewrite Hs, Hf, Hd. split; [|done].
  destruct fs as [h|]; simpl; [|done].
  apply or_else_default.
Qed.

(** C10: a part whose body carries no data is skipped by the part scan: the
    iteration on it leaves both variables as they are, and the extracted
    bodies are those of the last text/plain and the last text/html part
    carrying body data among the other parts. *)
Theorem part_without_data_skipped d pl pre p post acc :
  payload d = Some pl -> parts pl = Some (pre ++ p :: post) ->
  Js.truthy (body_data (body p)) = false ->
  scan_part decode acc p = acc /\
  textPlain (extract decode d) =
    from_option (part_text decode) ""
                (last_carrying "text/plain" (pre ++ post)) /\
  textHtml (extract decode d) =
    from_option (part_text decode) ""
                (last_carrying "text/html" (pre ++ post)).
Proof.
  intros Hd Hp Hdata. split.
  - destruct acc as [tp th]. unfold scan_part.
    rewrite (proj2 (truthy_data_None _) Hdata).
    by destruct (Js.strict_eq (mimeType p) "text/plain"),
               (Js.strict_eq (mimeType p) "text/html").
  - rewrite <- !(last_carrying_skip _ pre p post Hdata).
    apply (extract_parts decode d pl _ Hd Hp).
    by destruct pre.
Qed.

End ExtractorClaims.

(** ** Promise.all *)

Section AllFacts.

Context {E A : Type}.
Implicit Types (ps : list (E + A)) (st : Promise.all_state E A).
Implicit Types (sched pre post : list nat).

Lemma settle_settled (cur new : Promise.state E (list (option A))) :
  cur <> Promise.Pending -> Promise.settle cur new = cur.
Proof. by destruct cur. Qed.

(** Once [Promise.all] is settled, later completions do not change it. *)
Lemma all_settled_stable ps sched st :
  Promise.outcome st <> Promise.Pending ->
  Promise.outcome (fold_left (Promise.all_step ps) sched st) =
  Promise.outcome st.
Proof.
  revert st. induction sched as [|i sched IH]; intros st Hst; [done|].
  simpl. assert (Hstep : Promise.outcome (Promise.all_step ps st i) =
                         Promise.outcome st).
  { unfold Promise.all_step.
    destruct (ps !! i) as [[e|v]|]; simpl; auto using settle_settled. }
  rewrite IH; rewrite Hstep; done.
Qed.

Lemma all_inv_init (vs : list A) :
  all_inv (E:=E) vs [] (Promise.all_init (length vs)).
Proof.
  unfold all_inv, Promise.all_init. simpl. repeat split.
  - intros i. destruct (vs !! i) as [v|] eqn:Hv; simpl.
    + apply lookup_replicate_2. by apply lookup_lt_Some in Hv.
    + apply lookup_ge_None. rewrite length_replicate.
      by apply lookup_ge_None in Hv.
  - lia.
  - destruct vs; done.
Qed.

Lemma all_inv_step (vs : list A) pre st i :
  all_inv vs pre st -> i ∉ pre -> i < length vs -> length pre < length vs ->
  all_inv vs (pre ++ [i]) (Promise.all_step (inr <$> vs) st i).
Proof.
  intros (Hvals & Hrem & Hout) Hi Hlt Hlen.
  destruct (lookup_lt_is_Some_2 vs i Hlt) as [v Hv].
  unfold Promise.all_step. rewrite list_lookup_fmap, Hv. simpl.
  assert (Hpend : Promise.outcome st = Promise.Pending).
  { rewrite Hout. by rewrite (proj2 (Nat.ltb_lt _ _) Hlen). }
  assert (Hslot : i < length (Promise.values st)).
  { apply lookup_lt_is_Some. rewrite Hvals, Hv. simpl. eauto. }
  unfold all_inv. simpl. rewrite length_app. simpl. repeat split.
  - intros j. destruct (decide (j = i)) as [->|Hne].
    + rewrite list_lookup_insert_eq, Hv by done. simpl.
      rewrite decide_True; [done|].
      apply elem_of_app. right. by apply list_elem_of_singleton.
    + rewrite list_lookup_insert_ne, Hvals by done.
      destruct (vs !! j); simpl; [|done].
      destruct (decide (j ∈ pre)) as [Hin|Hnin].
      * rewrite decide_True; [done|]. apply elem_of_app. by left.
      * rewrite decide_False; [done|].
        rewrite elem_of_app, list_elem_of_singleton. tauto.
  - lia.
  - rewrite Hpend, Hrem. simpl.
    destruct (Nat.eqb_spec (length vs - length pre - 1) 0),
             (Nat.ltb_spec (length pre + 1) (length vs)); try lia; done.
Qed.

Lemma all_inv_run (vs : list A) post pre st :
  all_inv vs pre st ->
  NoDup (pre ++ post) -> Forall (fun i => i < length vs) post ->
  length (pre ++ post) <= length vs ->
  all_inv vs (pre ++ post) (fold_left (Promise.all_step (inr <$> vs)) post st).
Proof.
  revert pre st.
  induction post as [|i post IH]; intros pre st Hinv Hnd Hlt Hlen.
  - by rewrite app_nil_r.
  - simpl. replace (pre ++ i :: post) with ((pre ++ [i]) ++ post) in *
      by (by rewrite <- app_assoc).
    apply Forall_cons in Hlt as [Hi Hlt].
    apply IH; try done.
    apply all_inv_step; try done.
    + apply NoDup_app in Hnd as (Hnd & _ & _).
      apply NoDup_app in Hnd as (_ & Hdisj & _).
      intros Hin. apply (Hdisj i Hin). by apply list_elem_of_singleton.
    + rewrite !length_app in Hlen. simpl in Hlen. lia.
Qed.

(** When every promise fulfils and each completes exactly once, the result
    is the array of their values in the order of the promises, whatever the
    order of completion. *)
Lemma all_fulfilled_positional (vs : list A) sched :
  sched ≡ₚ seq 0 (length vs) ->
  @Promise.all E A (inr <$> vs) sched = Promise.Fulfilled (Some <$> vs).
Proof.
  intros Hperm. unfold Promise.all, Promise.all_run.
  rewrite length_fmap.
  assert (Hlen : length sched = length vs)
    by (by rewrite Hperm, length_seq).
  destruct (all_inv_run vs sched [] (Promise.all_init (length vs)))
    as (Hvals & _ & Hout); simpl.
  - apply all_inv_init.
  - rewrite Hperm. apply NoDup_seq.
  - rewrite Hperm. apply Forall_seq. intros; lia.
  - lia.
  - simpl in Hout. rewrite Hlen, Nat.ltb_irrefl in Hout. rewrite Hout.
    f_equal. apply list_eq. intros i.
    rewrite Hvals, list_lookup_fmap.
    destruct (vs !! i) as [v|] eqn:Hv; simpl; [|done].
    rewrite decide_True; [done|].
    rewrite Hperm. apply elem_of_seq. apply lookup_lt_Some in Hv. lia.
Qed.

End AllFacts.

(** ** Inbox fetcher *)

Section FetcherFacts.

Context {Err : Type}.
Variable decode : string -> string.
Implicit Types (g : Gmail Err) (msgs : list MsgRef).

Lemma fetch_one_fulfilled g msgs details :
  Forall2 (fun m d => messages_get g (id m) = inr d) msgs details ->
  map (fetch_one decode g) msgs = inr <$> (extract decode <$> details).
Proof.
  induction 1 as [|m d msgs details Hm _ IH]; simpl; [done|].
  unfold fetch_one at 1. rewrite Hm. by f_equal.
Qed.

Lemma fetch_one_lookup_rejected g msgs k e :
  map (fetch_one decode g) msgs !! k = Some (inl e) ->
  exists m, msgs !! k = Some m /\ messages_get g (id m) = inl e.
Proof.
  change (map (fetch_one decode g) msgs) with (fetch_one decode g <$> msgs).
  rewrite list_lookup_fmap.
  destruct (msgs !! k) as [m|]; simpl; [|done].
  unfold fetch_one. destruct (messages_get g (id m)) eqn:Hm; [|done].
  intros [= ->]. eauto.
Qed.

Lemma fetch_one_lookup_fulfilled g msgs j v :
  map (fetch_one decode g) msgs !! j = Some (inr v) ->
  exists m d, msgs !! j = Some m /\ messages_get g (id m) = inr d.
Proof.
  change (map (fetch_one decode g) msgs) with (fetch_one decode g <$> msgs).
  rewrite list_lookup_fmap.
  destruct (msgs !! j) as [m|]; simpl; [|done].
  unfold fetch_one. destruct (messages_get g (id m)) eqn:Hm; [done|].
  intros _. eauto.
Qed.

(** C4: when the list call returns the identifiers [msgs] and every detail
    fetch succeeds, the fetch resolves with the extractions of the details
    in the order of [msgs]: the i-th result is the extraction of the detail
    fetched for the i-th identifier, whatever the order [sched] in which the
    detail fetches complete. *)
Theorem fetch_results_positional g msgs details sched :
  messages_list g = inr (Some msgs) ->
  Forall2 (fun m d => messages_get g (id m) = inr d) msgs details ->
  sched ≡ₚ seq 0 (length msgs) ->
  fetchEmails decode g sched =
  Promise.Fulfilled (map (fun d => Some (extract decode d)) details).
Proof.
  intros Hlist Hget Hsched. unfold fetchEmails. rewrite Hlist.
  rewrite (fetch_one_fulfilled g msgs details Hget).
  rewrite all_fulfilled_positional.
  - by rewrite <- list_fmap_compose.
  - rewrite length_fmap, <- (Forall2_length _ _ _ Hget). exact Hsched.
Qed.

End FetcherFacts.

(** ** Account store *)

Section StoreFacts.

Context {Tokens Err : Type}.
Variable decode : string -> string.
Variable client : Tokens -> Gmail Err.
Variable order : Tokens -> list nat.

Local Abbreviation Store := (list (Account Tokens)).
Implicit Types (store : Store) (acc : Account Tokens).

Lemma find_email_present store e :
  e ∈ map email store ->
  exists acc, Js.find (fun acc => String.eqb (email acc) e) store = Some acc.
Proof.
  unfold Js.find. induction store as [|a store IH]; simpl.
  - intros H. by apply elem_of_nil in H.
  - intros H. destruct (String.eqb_spec (email a) e) as [_|Hne]; [eauto|].
    apply elem_of_cons in H as [->|H]; [done | auto].
Qed.

Lemma find_email_absent store e :
  e ∉ map email store ->
  Js.find (fun acc => String.eqb (email acc) e) store = None.
Proof.
  unfold Js.find. induction store as [|a store IH]; simpl; [done|].
  intros H. apply not_elem_of_cons in H as [Hne H].
  destruct (String.eqb_spec (email a) e) as [Heq|_]; [congruence | auto].
Qed.

Lemma upsert_present store e t ms :
  e ∈ map email store -> upsertIfAbsent e t ms store = store.
Proof.
  intros H. unfold upsertIfAbsent.
  by destruct (find_email_present store e H) as [acc ->].
Qed.

Lemma upsert_absent store e t ms :
  e ∉ map email store ->
  upsertIfAbsent e t ms store = store ++ [mkAccount e t ms].
Proof.
  intros H. unfold upsertIfAbsent. by rewrite (find_email_absent store e H).
Qed.

Lemma upsert_email_present store e t ms :
  e ∈ map email (upsertIfAbsent e t ms store).
Proof.
  destruct (decide (e ∈ map email store)) as [Hin|Hnin].
  - by rewrite upsert_present.
  - rewrite upsert_absent, map_app by done.
    apply elem_of_app. right. by apply list_elem_of_singleton.
Qed.

Lemma remove_emails store e :
  map email (removeByEmail e store) =
  List.filter (fun e' => negb (String.eqb e' e)) (map email store).
Proof.
  unfold removeByEmail. induction store as [|a store IH]; simpl; [done|].
  destruct (String.eqb (email a) e); simpl; by rewrite IH.
Qed.

Lemma remove_email_gone store e : e ∉ map email (removeByEmail e store).
Proof.
  rewrite remove_emails. rewrite list_elem_of_In, filter_In.
  intros [_ H]. by rewrite String.eqb_refl in H.
Qed.

Lemma remove_absent store e :
  e ∉ map email store -> removeByEmail e store = store.
Proof.
  unfold removeByEmail. induction store as [|a store IH]; simpl; [done|].
  intros H. apply not_elem_of_cons in H as [Hne H].
  rewrite (proj2 (String.eqb_neq _ _)) by congruence. simpl. by rewrite IH.
Qed.

Lemma NoDup_filter_bool {X} (p : X -> bool) (l : list X) :
  NoDup l -> NoDup (List.filter p l).
Proof.
  induction 1 as [|x l Hx _ IH]; simpl; [constructor|].
  destruct (p x); [|done]. constructor; [|done].
  rewrite list_elem_of_In, filter_In, <- list_elem_of_In. tauto.
Qed.

Lemma upsert_unique store e t ms :
  unique_emails store -> unique_emails (upsertIfAbsent e t ms store).
Proof.
  unfold unique_emails. intros Hnd.
  destruct (decide (e ∈ map email store)) as [Hin|Hnin].
  - by rewrite upsert_present.
  - rewrite upsert_absent, map_app by done. simpl.
    apply NoDup_app. repeat split; [done | | apply NoDup_singleton].
    intros x Hx Hx'. apply list_elem_of_singleton in Hx'. by subst.
Qed.

Lemma remove_unique store e :
  unique_emails store -> unique_emails (removeByEmail e store).
Proof.
  unfold unique_emails. rewrite remove_emails. apply NoDup_filter_bool.
Qed.

Lemma apply_op_unique o store :
  unique_emails store -> unique_emails (apply_op decode client order o store).
Proof.
  destruct o; simpl; auto using upsert_unique, remove_unique.
Qed.

Lemma refresh_loop_fulfilled store fetched updated :
  Forall2 (fun acc ms =>
             fetchEmails decode (client (tokens acc)) (order (tokens acc)) =
             Promise.Fulfilled ms) store fetched ->
  refresh_loop decode client order store updated =
  Promise.Fulfilled (updated ++ zip (map email store) fetched).
Proof.
  intros H. revert updated.
  induction H as [|acc ms store fetched Hacc _ IH]; intros updated; simpl.
  - by rewrite app_nil_r.
  - rewrite Hacc, IH. by rewrite <- app_assoc.
Qed.

(** C6: [upsertIfAbsent] leaves the store unchanged when an account with
    that email exists (no duplicate, tokens not updated) and otherwise
    appends the new account at the end of the collection; hence a second
    call with the same email changes nothing. *)
Theorem upsertIfAbsent_noop_or_append store e t ms :
  (e ∈ map email store -> upsertIfAbsent e t ms store = store) /\
  (e ∉ map email store ->
   upsertIfAbsent e t ms store = store ++ [mkAccount e t ms]) /\
  (forall t' ms',
     upsertIfAbsent e t' ms' (upsertIfAbsent e t ms store) =
     upsertIfAbsent e t ms store).
Proof.
  repeat split.
  - apply upsert_present.
  - apply upsert_absent.
  - intros t' ms'. apply upsert_present, upsert_email_present.
Qed.

(** C7: every store reachable from the empty store by [upsertIfAbsent],
    [removeByEmail] and [refreshAndListAll] holds at most one account per
    email, and each operation preserves that invariant. *)
Theorem at_most_one_account_per_email store o :
  (reachable decode client order store -> unique_emails store) /\
  (unique_emails store ->
   unique_emails (apply_op decode client order o store)).
Proof.
  split; [|apply apply_op_unique].
  induction 1 as [|o' store' _ IH].
  - constructor.
  - by apply apply_op_unique.
Qed.

(** C8: after [removeByEmail e] no account of the store, hence of a later
    [listAll], has the email [e]; a second [removeByEmail e] changes
    nothing; when no account has the email [e] the store is unchanged; and
    the handler answers success in every case. *)
Theorem removeByEmail_removes_idempotent store e :
  (forall acc, acc ∈ listAll (removeByEmail e store) -> email acc <> e) /\
  removeByEmail e (removeByEmail e store) = removeByEmail e store /\
  (e ∉ map email store -> removeByEmail e store = store) /\
  snd (delete_handler e store) = JsonSuccess.
Proof.
  repeat split.
  - intros acc Hacc Heq. apply (remove_email_gone store e).
    by apply (list_elem_of_fmap_2' email _ acc).
  - apply remove_absent, remove_email_gone.
  - apply remove_absent.
Qed.

(** C9: [refreshAndListAll] leaves the store as it is, in particular the
    [messages] field of every stored account, and when the fetch of every
    stored account succeeds it answers with the pairs of each account's
    email and its freshly fetched messages, in store order. *)
Theorem refreshAndListAll_frame store fetched :
  fst (refreshAndListAll decode client order store) = store /\
  map messages (fst (refreshAndListAll decode client order store)) =
    map messages store /\
  (Forall2 (fun acc ms =>
              fetchEmails decode (client (tokens acc)) (order (tokens acc)) =
              Promise.Fulfilled ms) store fetched ->
   snd (refreshAndListAll decode client order store) =
     JsonAccounts (zip (map email store) fetched)).
Proof.
  repeat split. intros H. unfold refreshAndListAll. simpl.
  by rewrite (refresh_loop_fulfilled store fetched [] H).
Qed.

End StoreFacts.

(** * Concrete runs *)

(** The last text/plain part of [sample_two_plain] carries data and wins
    over the first; the text/html part is picked independently. *)
Lemma last_part_with_data_wins_witness :
  textPlain (extract Base64.decode (sample_multipart sample_two_plain)) =
    "hello" /\
  textHtml (extract Base64.decode (sample_multipart sample_two_plain)) =
    "<b>hi</b>".
Proof.
  destruct (last_part_with_data_wins Base64.decode
              (sample_multipart sample_two_plain)
              (mkPayload (Some "multipart/mixed") (Some sample_headers)
                         (Some sample_two_plain) None)
              (sample_plain "aGk=")
              [sample_html "PGI+aGk8L2I+"; sample_plain "aGVsbG8="]
              eq_refl eq_refl) as (Hplain & Hhtml & _).
  split; [rewrite Hplain | rewrite Hhtml]; reflexivity.
Defined.

(** C1 as stated fails: the second of the two text/plain parts of
    [sample_with_attachment] is the last part of that type, it carries no
    body data, and the extracted [textPlain] is the decoded body of the
    first part instead. *)
Lemma last_text_plain_part_does_not_always_win :
  last_of_type "text/plain" sample_with_attachment = Some sample_attachment /\
  textPlain (extract Base64.decode (sample_multipart sample_with_attachment)) =
    "hello" /\
  textPlain (extract Base64.decode (sample_multipart sample_with_attachment)) <>
    last_of_type_text Base64.decode "text/plain" sample_with_attachment.
Proof.
  split; [reflexivity|]. split; [reflexivity|]. vm_compute. discriminate.
Qed.

(** The same with a last text/plain part whose body data is the empty
    string. *)
Example last_text_plain_part_empty_data :
  textPlain (extract Base64.decode
               (sample_multipart [sample_plain "aGVsbG8="; sample_plain ""])) =
    "hello" /\
  last_of_type_text Base64.decode "text/plain"
    [sample_plain "aGVsbG8="; sample_plain ""] = "".
Proof. split; reflexivity. Qed.

Lemma no_parts_top_level_body_witness :
  textHtml (extract Base64.decode sample_single) = "" /\
  textPlain (extract Base64.decode sample_single) = "<b>hi</b>".
Proof.
  destruct (no_parts_top_level_body Base64.decode sample_single
              (mkPayload (Some "text/html") None None
                         (Some (mkBody (Some "PGI+aGk8L2I+"))))
              eq_refl (or_introl eq_refl)) as [Hhtml Hplain].
  split; [rewrite Hhtml | rewrite Hplain]; reflexivity.
Defined.

(** In [sample_headers] the header named [subject] is not a match for
    [Subject], the first [From] header wins over the second, the value of
    the [Subject] header is empty and there is no [Date] header. *)
Lemma header_lookup_first_match_witness :
  subject (extract Base64.decode (sample_multipart sample_two_plain)) =
    "(No Subject)" /\
  from (extract Base64.decode (sample_multipart sample_two_plain)) =
    "first@example.com" /\
  date (extract Base64.decode (sample_multipart sample_two_plain)) = "".
Proof.
  apply (header_lookup_first_match Base64.decode
           (sample_multipart sample_two_plain)
           (Some (mkHeader "Subject" (Some "")))
           (Some (mkHeader "From" (Some "first@example.com")))
           None).
  - exists [ mkHeader "subject" (Some "lower case");
             mkHeader "From" (Some "first@example.com");
             mkHeader "From" (Some "second@example.com") ], [].
    repeat split; repeat constructor; discriminate.
  - exists [ mkHeader "subject" (Some "lower case") ],
           [ mkHeader "From" (Some "second@example.com");
             mkHeader "Subject" (Some "") ].
    repeat split; repeat constructor; discriminate.
  - repeat constructor; discriminate.
Defined.

Lemma part_without_data_skipped_witness :
  scan_part Base64.decode ("hello", "") sample_attachment = ("hello", "") /\
  textPlain (extract Base64.decode (sample_multipart sample_with_attachment)) =
    "hello" /\
  textHtml (extract Base64.decode (sample_multipart sample_with_attachment)) =
    "".
Proof.
  destruct (part_without_data_skipped Base64.decode
              (sample_multipart sample_with_attachment)
              (mkPayload (Some "multipart/mixed") (Some sample_headers)
                         (Some sample_with_attachment) None)
              [sample_plain "aGVsbG8="] sample_attachment [] ("hello", "")
              eq_refl eq_refl eq_refl) as (Hskip & Hplain & Hhtml).
  split; [exact Hskip|].
  split; [rewrite Hplain | rewrite Hhtml]; reflexivity.
Defined.

(** The detail fetches complete in the order second, first, third; the
    records come back in the order of the identifiers. *)
Lemma fetch_results_positional_witness :
  fetchEmails Base64.decode sample_gmail [1; 0; 2] =
  Promise.Fulfilled sample_fetched.
Proof.
  apply (fetch_results_positional Base64.decode sample_gmail sample_msgs
           sample_details [1; 0; 2]).
  - reflexivity.
  - repeat constructor.
  - simpl. apply perm_swap.
Defined.

Example fetch_pending_until_all_complete :
  fetchEmails Base64.decode sample_gmail [1; 0] = Promise.Pending.
Proof. reflexivity. Qed.

Example fetch_rejected_in_completion_order :
  fetchEmails Base64.decode sample_gmail_failing [0; 2; 1] =
    Promise.Rejected "timeout" /\
  fetchEmails Base64.decode sample_gmail_failing [0; 1; 2] =
    Promise.Rejected "quota" /\
  fetchEmails Base64.decode sample_gmail_failing [2] =
    Promise.Rejected "timeout".
Proof. repeat split; reflexivity. Qed.

Lemma upsertIfAbsent_noop_or_append_witness :
  upsertIfAbsent "a@example.com" "fresh token" sample_fetched sample_store =
    sample_store /\
  upsertIfAbsent "c@example.com" "fresh token" sample_fetched sample_store =
    sample_store ++
    [mkAccount "c@example.com" "fresh token" sample_fetched].
Proof.
  split.
  - apply (proj1 (upsertIfAbsent_noop_or_append sample_store
                    "a@example.com" "fresh token" sample_fetched)).
    apply elem_of_cons. left. reflexivity.
  - apply (proj1 (proj2 (upsertIfAbsent_noop_or_append sample_store
                           "c@example.com" "fresh token" sample_fetched))).
    intros H. repeat (apply elem_of_cons in H as [H|H]; [discriminate|]).
    by apply elem_of_nil in H.
Defined.

Lemma at_most_one_account_per_email_witness :
  unique_emails
    (apply_op Base64.decode sample_client sample_order
       (OpUpsert "a@example.com" "token" []) []) /\
  unique_emails
    (apply_op Base64.decode sample_client sample_order
       (OpRemove "a@example.com") sample_store).
Proof.
  split.
  - apply (proj1 (at_most_one_account_per_email Base64.decode sample_client
                    sample_order _ OpRefresh)).
    apply reachable_step, reachable_empty.
  - apply (proj2 (at_most_one_account_per_email Base64.decode sample_client
                    sample_order sample_store (OpRemove "a@example.com"))).
    unfold unique_emails. simpl.
    apply NoDup_cons. split.
    + intros H. apply list_elem_of_singleton in H. discriminate.
    + apply NoDup_singleton.
Defined.

Lemma removeByEmail_removes_idempotent_witness :
  removeByEmail "c@example.com" sample_store = sample_store.
Proof.
  apply (proj1 (proj2 (proj2 (removeByEmail_removes_idempotent sample_store
                                "c@example.com")))).
  intros H. repeat (apply elem_of_cons in H as [H|H]; [discriminate|]).
  by apply elem_of_nil in H.
Defined.

Lemma refreshAndListAll_frame_witness :
  snd (refreshAndListAll Base64.decode sample_client sample_order
         sample_store) =
  JsonAccounts [ ("a@example.com", sample_fetched);
                 ("b@example.com", sample_fetched) ].
Proof.
  apply (proj2 (proj2 (refreshAndListAll_frame Base64.decode sample_client
                         sample_order sample_store
                         [sample_fetched; sample_fetched]))).
  repeat constructor.
Defined.

(** * Further properties *)

(** ** Promise.all over arbitrary promises *)

Section AllGeneral.

Context {E A : Type}.
Implicit Types (ps : list (E + A)) (st : Promise.all_state E A).
Implicit Types (sched pre post : list nat).

(** Distinct positions below [n], at least [n] of them, are all of them. *)
Lemma positions_covered (l : list nat) n :
  NoDup l -> Forall (fun j => j < n) l -> n <= length l ->
  forall j, j < n -> j ∈ l.
Proof.
  intros Hnd Hlt Hlen j Hj.
  assert (Hperm : l ≡ₚ seq 0 n).
  { apply submseteq_length_Permutation.
    - apply NoDup_submseteq; [done|].
      intros x Hx. apply elem_of_seq.
      rewrite Forall_forall in Hlt. specialize (Hlt x Hx). lia.
    - by rewrite length_seq. }
  rewrite Hperm. apply elem_of_seq. lia.
Qed.

Lemma same_lookup_length {X Y} (f : nat -> X -> Y) (l : list Y) (k : list X) :
  (forall i, l !! i = f i <$> k !! i) -> length l = length k.
Proof.
  intros H.
  destruct (Nat.lt_trichotomy (length l) (length k)) as [Hlt|[Heq|Hgt]];
    [|done|].
  - destruct (lookup_lt_is_Some_2 k _ Hlt) as [x Hx].
    specialize (H (length l)). rewrite Hx in H. simpl in H.
    apply lookup_lt_Some in H. lia.
  - destruct (lookup_lt_is_Some_2 l _ Hgt) as [y Hy].
    specialize (H (length k)). rewrite Hy in H.
    rewrite (proj2 (lookup_ge_None k (length k))) in H by lia. done.
Qed.

Lemma fulfils_lt ps i : fulfils ps i = true -> i < length ps.
Proof.
  unfold fulfils. destruct (ps !! i) eqn:Hi; [|done].
  intros _. by apply lookup_lt_Some in Hi.
Qed.

Lemma filter_fulfils_snoc ps pre i :
  List.filter (fulfils ps) (pre ++ [i]) =
  List.filter (fulfils ps) pre ++ (if fulfils ps i then [i] else []).
Proof. rewrite List.filter_app. simpl. by destruct (fulfils ps i). Qed.

Lemma slot_snoc_ne pre i j (o : E + A) :
  j <> i -> slot (pre ++ [i]) j o = slot pre j o.
Proof.
  intros Hne. unfold slot. destruct o as [e|v]; [done|].
  destruct (decide (j ∈ pre)) as [Hin|Hnin].
  - rewrite decide_True; [done|]. apply elem_of_app. by left.
  - rewrite decide_False; [done|].
    rewrite elem_of_app, list_elem_of_singleton. tauto.
Qed.

Lemma all_gen_inv_init ps : all_gen_inv ps [] (Promise.all_init (length ps)).
Proof.
  unfold all_gen_inv, Promise.all_init. simpl.
  split; [|split; [lia|]].
  - intros i. destruct (ps !! i) as [o|] eqn:Ho; simpl.
    + rewrite lookup_replicate_2 by (by apply lookup_lt_Some in Ho).
      f_equal. unfold slot. destruct o; [done|].
      rewrite decide_False; [done|]. apply not_elem_of_nil.
    + apply lookup_ge_None. rewrite length_replicate.
      by apply lookup_ge_None in Ho.
  - intros vs Hvs. destruct ps; simpl in Hvs; [|done].
    injection Hvs as <-. split; [done|]. intros i o Hi. done.
Qed.

(** What was recorded for the positions [pre] still holds for more of
    them. *)
Lemma fulfilled_part_mono ps pre i
    (out : Promise.state E (list (option A))) :
  (forall vs, out = Promise.Fulfilled vs ->
     length vs = length ps /\
     forall j o, ps !! j = Some o ->
       j ∈ pre /\ exists v, o = inr v /\ vs !! j = Some (Some v)) ->
  forall vs, out = Promise.Fulfilled vs ->
    length vs = length ps /\
    forall j o, ps !! j = Some o ->
      j ∈ pre ++ [i] /\ exists v, o = inr v /\ vs !! j = Some (Some v).
Proof.
  intros H vs Hvs. destruct (H vs Hvs) as [Hlen Hall]. split; [done|].
  intros j o Hj. destruct (Hall j o Hj) as [Hin Hv]. split; [|done].
  apply elem_of_app. by left.
Qed.

Lemma all_gen_inv_step ps pre st i :
  all_gen_inv ps pre st -> NoDup (pre ++ [i]) ->
  all_gen_inv ps (pre ++ [i]) (Promise.all_step ps st i).
Proof.
  intros (Hvals & Hrem & Hout) Hnd.
  assert (Hi : i ∉ pre).
  { apply NoDup_app in Hnd as (_ & Hdisj & _).
    intros Hin. apply (Hdisj i Hin). by apply list_elem_of_singleton. }
  unfold Promise.all_step. destruct (ps !! i) as [[e|v]|] eqn:Hpi.
  - (* the promise rejects *)
    unfold all_gen_inv. simpl. split; [|split].
    + intros j. rewrite Hvals. destruct (ps !! j) as [o|] eqn:Hj; [|done].
      destruct (decide (j = i)) as [->|Hne].
      * simpl. replace o with (@inl E A e) by congruence. done.
      * simpl. by rewrite slot_snoc_ne.
    + rewrite filter_fulfils_snoc. unfold fulfils at 2. rewrite Hpi.
      by rewrite app_nil_r.
    + intros vs Hvs. apply (fulfilled_part_mono ps pre i _ Hout vs).
      destruct (Promise.outcome st); simpl in Hvs; congruence.
  - (* the promise fulfils *)
    assert (Hslot : i < length (Promise.values st)).
    { apply lookup_lt_is_Some. rewrite Hvals, Hpi. simpl. eauto. }
    assert (Hvals' : forall j,
              <[i := Some v]> (Promise.values st) !! j =
              slot (pre ++ [i]) j <$> ps !! j).
    { intros j. destruct (decide (j = i)) as [->|Hne].
      - rewrite list_lookup_insert_eq, Hpi by done. simpl.
        rewrite decide_True; [done|].
        apply elem_of_app. right. by apply list_elem_of_singleton.
      - rewrite list_lookup_insert_ne, Hvals by done.
        destruct (ps !! j) as [o|] eqn:Hj; [|done].
        simpl. by rewrite slot_snoc_ne. }
    assert (Hfil : List.filter (fulfils ps) (pre ++ [i]) =
                   List.filter (fulfils ps) pre ++ [i]).
    { rewrite filter_fulfils_snoc. unfold fulfils at 2. by rewrite Hpi. }
    assert (Hnew : forall vs,
              Promise.remaining st - 1 = 0 ->
              vs = <[i := Some v]> (Promise.values st) ->
              length vs = length ps /\
              forall j o, ps !! j = Some o ->
                j ∈ pre ++ [i] /\
                exists w, o = inr w /\ vs !! j = Some (Some w)).
    { intros vs Hzero ->. split.
      { by apply (same_lookup_length (slot (pre ++ [i]))). }
      intros j o Hj.
      assert (Hcov : j ∈ List.filter (fulfils ps) (pre ++ [i])).
      { apply (positions_covered _ (length ps)).
        - by apply NoDup_filter_bool.
        - apply Forall_forall. intros x Hx.
          apply list_elem_of_In, filter_In in Hx as [_ Hx].
          by apply fulfils_lt.
        - rewrite Hfil, length_app. simpl. lia.
        - by apply lookup_lt_Some in Hj. }
      apply list_elem_of_In, filter_In in Hcov as [Hin Hful].
      apply list_elem_of_In in Hin. split; [done|].
      unfold fulfils in Hful. rewrite Hj in Hful.
      destruct o as [e|w]; [done|]. exists w. split; [done|].
      rewrite Hvals', Hj. simpl. by rewrite decide_True. }
    unfold all_gen_inv. simpl. split; [|split].
    + exact Hvals'.
    + rewrite Hfil, length_app. simpl. lia.
    + intros vs Hvs. destruct (Promise.outcome st) eqn:Hst; simpl in Hvs.
      * destruct (Nat.eqb_spec (Promise.remaining st - 1) 0); [|done].
        injection Hvs as <-. by apply Hnew.
      * done.
      * by apply (fulfilled_part_mono ps pre i _ Hout vs).
  - (* no promise at that position *)
    unfold all_gen_inv. split; [|split].
    + intros j. rewrite Hvals. destruct (ps !! j) as [o|] eqn:Hj; [|done].
      simpl. rewrite slot_snoc_ne; [done|]. congruence.
    + rewrite filter_fulfils_snoc. unfold fulfils at 2. rewrite Hpi.
      by rewrite app_nil_r.
    + intros vs Hvs. by apply (fulfilled_part_mono ps pre i _ Hout vs).
Qed.

Lemma all_gen_inv_run ps post pre st :
  all_gen_inv ps pre st -> NoDup (pre ++ post) ->
  all_gen_inv ps (pre ++ post) (fold_left (Promise.all_step ps) post st).
Proof.
  revert pre st.
  induction post as [|i post IH]; intros pre st Hinv Hnd.
  - by rewrite app_nil_r.
  - simpl. replace (pre ++ i :: post) with ((pre ++ [i]) ++ post) in *
      by (by rewrite <- app_assoc).
    apply IH; [|done]. apply all_gen_inv_step; [done|].
    by apply NoDup_app in Hnd as (Hnd & _ & _).
Qed.

(** When each promise completes at most once, [Promise.all] is fulfilled
    only after every promise has completed and fulfilled, and then with
    each value at the position of its promise. *)
Lemma all_fulfilled_complete ps sched vs :
  NoDup sched -> Promise.all ps sched = Promise.Fulfilled vs ->
  length vs = length ps /\
  forall i o, ps !! i = Some o ->
    i ∈ sched /\ exists v, o = inr v /\ vs !! i = Some (Some v).
Proof.
  intros Hnd Hvs.
  destruct (all_gen_inv_run ps sched [] (Promise.all_init (length ps)))
    as (_ & _ & Hout); [apply all_gen_inv_init | done |].
  by apply Hout.
Qed.

(** A rejection of [Promise.all] is the rejection of one of the promises
    that completed. *)
Lemma all_rejected_from ps sched st e :
  Promise.outcome (fold_left (Promise.all_step ps) sched st) =
    Promise.Rejected e ->
  Promise.outcome st = Promise.Rejected e \/
  exists k, k ∈ sched /\ ps !! k = Some (inl e).
Proof.
  revert st. induction sched as [|i sched IH]; intros st H; [by left|].
  simpl in H. destruct (IH _ H) as [Hst|(k & Hk & He)].
  - unfold Promise.all_step in Hst.
    destruct (ps !! i) as [[e'|v]|] eqn:Hi; simpl in Hst.
    + destruct (Promise.outcome st) eqn:Ho; simpl in Hst.
      * injection Hst as ->. right. exists i. split; [|done].
        apply elem_of_cons. by left.
      * by left.
      * done.
    + destruct (Promise.outcome st) eqn:Ho; simpl in Hst.
      * by destruct (Nat.eqb (Promise.remaining st - 1) 0).
      * by left.
      * done.
    + by left.
  - right. exists k. split; [|done]. apply elem_of_cons. by right.
Qed.

End AllGeneral.

(** ** The first rejection *)

Section AllRejection.

Context {E A : Type}.
Implicit Types (ps : list (E + A)) (sched pre post : list nat).

(** A schedule in which some promise rejects splits at the first
    completion that is a rejection. *)
Lemma first_rejection_split ps sched :
  (exists k e, k ∈ sched /\ ps !! k = Some (inl e)) ->
  exists pre k post e,
    sched = pre ++ k :: post /\ ps !! k = Some (inl e) /\
    Forall (fun j => forall e', ps !! j <> Some (inl e')) pre.
Proof.
  induction sched as [|j sched IH]; intros (k & e & Hk & He).
  - by apply elem_of_nil in Hk.
  - destruct (ps !! j) as [[e'|v]|] eqn:Hj.
    + exists [], j, sched, e'. auto.
    + apply elem_of_cons in Hk as [->|Hk]; [congruence|].
      destruct IH as (pre & k' & post & e'' & -> & Hk' & Hpre); [eauto|].
      exists (j :: pre), k', post, e''. repeat split; [done|].
      constructor; [|done]. intros e'. congruence.
    + apply elem_of_cons in Hk as [->|Hk]; [congruence|].
      destruct IH as (pre & k' & post & e'' & -> & Hk' & Hpre); [eauto|].
      exists (j :: pre), k', post, e''. repeat split; [done|].
      constructor; [|done]. intros e'. congruence.
Qed.

(** When each promise completes at most once, the first completion that is
    a rejection settles [Promise.all], whether or not the other promises
    ever complete. *)
Lemma all_rejected_at_first ps pre k post e :
  NoDup (pre ++ k :: post) ->
  Forall (fun j => forall e', ps !! j <> Some (inl e')) pre ->
  ps !! k = Some (inl e) ->
  Promise.all ps (pre ++ k :: post) = Promise.Rejected e.
Proof.
  intros Hnd Hpre Hk. unfold Promise.all, Promise.all_run.
  rewrite fold_left_app. simpl.
  apply NoDup_app in Hnd as (Hndpre & Hdisj & _).
  set (st := fold_left (Promise.all_step ps) pre
                       (Promise.all_init (length ps))).
  assert (Hpend : Promise.outcome st = Promise.Pending).
  { destruct (Promise.outcome st) as [|e'|vs] eqn:Hst; [done| |].
    - apply all_rejected_from in Hst as [Hinit|(k' & Hin & He')].
      + unfold Promise.all_init in Hinit. simpl in Hinit.
        by destruct (Nat.eqb (length ps) 0).
      + rewrite Forall_forall in Hpre. by destruct (Hpre k' Hin e').
    - destruct (all_gen_inv_run ps pre [] (Promise.all_init (length ps)))
        as (_ & _ & Hout); [apply all_gen_inv_init | done |].
      destruct (Hout vs Hst) as [_ Hall].
      destruct (Hall k (inl e) Hk) as [Hin _].
      destruct (Hdisj k Hin). apply elem_of_cons. by left. }
  assert (Hstep : Promise.outcome (Promise.all_step ps st k) =
                  Promise.Rejected e).
  { unfold Promise.all_step. rewrite Hk. simpl. by rewrite Hpend. }
  rewrite all_settled_stable; rewrite Hstep; done.
Qed.

End AllRejection.

Section FetcherRejection.

Context {Err : Type}.
Variable decode : string -> string.
Implicit Types (g : Gmail Err) (msgs : list MsgRef).

(** C5: when the list call returns the identifiers [msgs] and at least one
    detail fetch fails, the fetch is rejected, with the error of the detail
    fetch that is the first to fail in completion order, and no sequence of
    records is returned; the other detail fetches may complete before it,
    after it, or never. *)
Theorem fetch_fails_on_first_rejection g msgs sched :
  messages_list g = inr (Some msgs) ->
  NoDup sched ->
  (exists k m e,
     k ∈ sched /\ msgs !! k = Some m /\ messages_get g (id m) = inl e) ->
  exists pre k post m e,
    sched = pre ++ k :: post /\
    msgs !! k = Some m /\ messages_get g (id m) = inl e /\
    Forall (fun j => forall m' e',
              msgs !! j = Some m' -> messages_get g (id m') <> inl e') pre /\
    fetchEmails decode g sched = Promise.Rejected e.
Proof.
  intros Hlist Hnd (k0 & m0 & e0 & Hk0 & Hm0 & He0).
  unfold fetchEmails. rewrite Hlist.
  set (ps := map (fetch_one decode g) msgs).
  assert (Hps : forall j m, msgs !! j = Some m ->
                  ps !! j = Some (fetch_one decode g m)).
  { intros j m Hm. subst ps.
    change (map (fetch_one decode g) msgs) with (fetch_one decode g <$> msgs).
    by rewrite list_lookup_fmap, Hm. }
  destruct (first_rejection_split ps sched)
    as (pre & k & post & e & -> & Hk & Hpre).
  { exists k0, e0. split; [done|].
    rewrite (Hps k0 m0 Hm0). unfold fetch_one. by rewrite He0. }
  destruct (fetch_one_lookup_rejected decode g msgs k e Hk) as (m & Hm & He).
  exists pre, k, post, m, e. repeat split; try done.
  - eapply Forall_impl; [exact Hpre|]. simpl.
    intros j Hj m' e' Hm' He'. apply (Hj e').
    rewrite (Hps j m' Hm'). unfold fetch_one. by rewrite He'.
  - by apply all_rejected_at_first.
Qed.

End FetcherRejection.

(** ** More on the extractor *)

Section ExtractorMore.

Variable decode : string -> string.

Lemma strict_eq_other (x : option string) (s : string) :
  x <> Some s -> Js.strict_eq x s = false.
Proof.
  destruct x as [v|]; simpl; [|done].
  intros Hne. apply String.eqb_neq. congruence.
Qed.

Lemma last_carrying_none mime ps :
  Forall (fun q => mimeType q <> Some mime) ps ->
  last_carrying mime ps = None.
Proof.
  intros H. unfold last_carrying.
  replace (List.filter (carries mime) ps) with (@nil Part); [done|].
  induction H as [|q ps Hq _ IH]; simpl; [done|].
  unfold carries at 1. by rewrite (strict_eq_other _ _ Hq).
Qed.

(** The subject of a record is never the empty string. *)
Theorem subject_never_empty d : subject (extract decode d) <> "".
Proof.
  unfold extract. destruct (bodies decode d) as [tp th]. simpl.
  destruct (String.eqb_spec (getHeader (detail_headers d) "Subject") "")
    as [_|Hne]; [discriminate | exact Hne].
Qed.

(** When the parts list is not empty and none of its parts is of type
    text/plain or text/html (a message whose text sits in a nested
    multipart, for one), both bodies are empty, whatever the parts and the
    payload's own body carry. *)
Theorem parts_without_text_give_empty_bodies d pl p ps :
  payload d = Some pl -> parts pl = Some (p :: ps) ->
  Forall (fun q => mimeType q <> Some "text/plain" /\
                   mimeType q <> Some "text/html") (p :: ps) ->
  textPlain (extract decode d) = "" /\ textHtml (extract decode d) = "".
Proof.
  intros Hd Hp Hq.
  destruct (extract_parts decode d pl (p :: ps) Hd Hp) as [Hplain Hhtml];
    [done|].
  rewrite Hplain, Hhtml, !last_carrying_none; [done| |].
  - eapply Forall_impl; [exact Hq|]. by intros q [_ ?].
  - eapply Forall_impl; [exact Hq|]. by intros q [? _].
Qed.

End ExtractorMore.

(** ** More on the inbox fetcher *)

Section FetcherMore.

Context {Err : Type}.
Variable decode : string -> string.
Implicit Types (g : Gmail Err) (msgs : list MsgRef).

(** When the list call answers without messages, or with an empty array,
    the fetch resolves with the empty array: no detail fetch has a say. *)
Theorem fetch_empty_listing g sched :
  messages_list g = inr None \/ messages_list g = inr (Some []) ->
  fetchEmails decode g sched = Promise.Fulfilled [].
Proof.
  intros [H|H]; unfold fetchEmails; rewrite H; [done|].
  unfold Promise.all, Promise.all_run. by rewrite all_settled_stable.
Qed.

(** When every detail fetch completes at most once, a fetch that resolves
    has seen every detail fetch complete and succeed, and its result holds
    one record per listed identifier, each at the position of its
    identifier: no result is partial. *)
Theorem fetch_fulfilled_only_when_complete g msgs sched ms :
  messages_list g = inr (Some msgs) -> NoDup sched ->
  fetchEmails decode g sched = Promise.Fulfilled ms ->
  (forall i, i < length msgs -> i ∈ sched) /\
  Forall2 (fun m r => exists d, messages_get g (id m) = inr d /\
                                r = Some (extract decode d)) msgs ms.
Proof.
  intros Hlist Hnd. unfold fetchEmails. rewrite Hlist. intros Hms.
  destruct (all_fulfilled_complete _ sched ms Hnd Hms) as [Hlen Hall].
  rewrite length_map in Hlen.
  assert (Hat : forall i m, msgs !! i = Some m ->
            i ∈ sched /\ exists d, messages_get g (id m) = inr d /\
                                   ms !! i = Some (Some (extract decode d))).
  { intros i m Hm.
    destruct (Hall i (fetch_one decode g m)) as (Hin & v & Hv & Hi).
    - change (map (fetch_one decode g) msgs)
        with (fetch_one decode g <$> msgs).
      by rewrite list_lookup_fmap, Hm.
    - split; [done|]. unfold fetch_one in Hv.
      destruct (messages_get g (id m)) as [e|d]; [done|].
      injection Hv as <-. eauto. }
  split.
  - intros i Hi. destruct (lookup_lt_is_Some_2 msgs i Hi) as [m Hm].
    by destruct (Hat i m Hm).
  - apply Forall2_same_length_lookup_2; [done|].
    intros i m r Hm Hr. destruct (Hat i m Hm) as (_ & d & Hd & Hi).
    exists d. split; [done | congruence].
Qed.

(** A fetch is only ever rejected with the error of the list call or with
    the error of a detail fetch, for a listed identifier, that completed. *)
Theorem fetch_rejection_provenance g sched e :
  fetchEmails decode g sched = Promise.Rejected e ->
  messages_list g = inl e \/
  exists msgs k m,
    messages_list g = inr (Some msgs) /\ k ∈ sched /\
    msgs !! k = Some m /\ messages_get g (id m) = inl e.
Proof.
  unfold fetchEmails.
  destruct (messages_list g) as [e'|[msgs|]]; [| |done].
  - intros [= ->]. by left.
  - intros H. right. unfold Promise.all, Promise.all_run in H.
    apply all_rejected_from in H as [H|(k & Hk & He)].
    + unfold Promise.all_init in H. simpl in H.
      by destruct (Nat.eqb (length (map (fetch_one decode g) msgs)) 0).
    + destruct (fetch_one_lookup_rejected decode g msgs k e He)
        as (m & Hm & Hget).
      exists msgs, k, m. done.
Qed.

End FetcherMore.

(** ** More on the account store *)

Section StoreMore.

Context {Tokens Err : Type}.
Variable decode : string -> string.
Variable client : Tokens -> Gmail Err.
Variable order : Tokens -> list nat.

Local Abbreviation Store := (list (Account Tokens)).
Implicit Types (store : Store) (acc : Account Tokens).

Lemma remove_app store1 store2 e :
  removeByEmail e (store1 ++ store2) =
  removeByEmail e store1 ++ removeByEmail e store2.
Proof. unfold removeByEmail. apply List.filter_app. Qed.

Lemma remove_elem store e acc :
  acc ∈ removeByEmail e store <-> acc ∈ store /\ email acc <> e.
Proof.
  unfold removeByEmail. rewrite !list_elem_of_In, filter_In.
  rewrite negb_true_iff, String.eqb_neq. done.
Qed.

Lemma remove_other_email store e e' :
  e <> e' ->
  e ∈ map email (removeByEmail e' store) <-> e ∈ map email store.
Proof.
  intros Hne. rewrite remove_emails, !list_elem_of_In, filter_In.
  rewrite negb_true_iff, String.eqb_neq.
  split; [by intros [? _] | by split].
Qed.

(** Removing an account keeps every account with another email, in the
    order they had, and nothing else. *)
Theorem removeByEmail_keeps_others store e :
  removeByEmail e store `sublist_of` store /\
  forall acc, acc ∈ removeByEmail e store <-> acc ∈ store /\ email acc <> e.
Proof.
  split; [|intros acc; apply remove_elem].
  unfold removeByEmail. induction store as [|a store IH]; simpl.
  - constructor.
  - destruct (negb (String.eqb (email a) e)); by constructor.
Qed.

(** In a store with at most one account per email, removing the email of a
    stored account takes out exactly that account and leaves the accounts
    before and after it in place. *)
Theorem removeByEmail_removes_exactly_one store e :
  unique_emails store -> e ∈ map email store ->
  exists pre acc post,
    store = pre ++ acc :: post /\ email acc = e /\
    removeByEmail e store = pre ++ post.
Proof.
  unfold unique_emails. induction store as [|a store IH]; simpl.
  - intros _ H. by apply elem_of_nil in H.
  - intros Hnd Hin. apply NoDup_cons in Hnd as [Ha Hnd].
    destruct (String.eqb_spec (email a) e) as [Heq|Hne].
    + exists [], a, store. repeat split; [done|].
      simpl. apply remove_absent. by rewrite <- Heq.
    + apply elem_of_cons in Hin as [Hin|Hin]; [congruence|].
      destruct (IH Hnd Hin) as (pre & acc & post & -> & Hacc & Hrem).
      exists (a :: pre), acc, post. repeat split; [done|].
      simpl. by rewrite Hrem.
Qed.

(** Disconnecting an account and connecting it again stores the new
    credential and messages, at the end of the collection; disconnecting
    an account right after connecting it leaves the store as if only the
    disconnection had happened. *)
Theorem reconnect_after_remove store e t ms :
  upsertIfAbsent e t ms (removeByEmail e store) =
    removeByEmail e store ++ [mkAccount e t ms] /\
  removeByEmail e (upsertIfAbsent e t ms store) = removeByEmail e store.
Proof.
  split.
  - apply upsert_absent, remove_email_gone.
  - destruct (decide (e ∈ map email store)) as [Hin|Hnin].
    + by rewrite upsert_present.
    + rewrite upsert_absent, remove_app by done.
      unfold removeByEmail at 2. simpl.
      rewrite String.eqb_refl. simpl. apply app_nil_r.
Qed.

(** Connecting one account and disconnecting another can be done in either
    order. *)
Theorem upsert_remove_commute store e e' t ms :
  e <> e' ->
  removeByEmail e' (upsertIfAbsent e t ms store) =
  upsertIfAbsent e t ms (removeByEmail e' store).
Proof.
  intros Hne. destruct (decide (e ∈ map email store)) as [Hin|Hnin].
  - rewrite !upsert_present; [done | | done].
    by apply remove_other_email.
  - rewrite !upsert_absent; [| |done].
    + rewrite remove_app. f_equal.
      unfold removeByEmail. simpl.
      by rewrite (proj2 (String.eqb_neq _ _) Hne).
    + by rewrite remove_other_email.
Qed.


Lemma refresh_loop_stops pre acc post updated :
  Forall (fun a => exists ms,
            fetchEmails decode (client (tokens a)) (order (tokens a)) =
            Promise.Fulfilled ms) pre ->
  (forall e,
     fetchEmails decode (client (tokens acc)) (order (tokens acc)) =
     Promise.Rejected e ->
     refresh_loop decode client order (pre ++ acc :: post) updated =
     Promise.Rejected e) /\
  (fetchEmails decode (client (tokens acc)) (order (tokens acc)) =
   Promise.Pending ->
   refresh_loop decode client order (pre ++ acc :: post) updated =
   Promise.Pending).
Proof.
  intros Hpre. revert updated.
  induction Hpre as [|a pre [ms Ha] _ IH]; intros updated; simpl.
  - split; [intros e H | intros H]; by rewrite H.
  - rewrite Ha. apply IH.
Qed.

(** The accounts are refreshed one after the other: at the first account,
    in store order, whose fetch is rejected the handler answers with
    status 500, and at the first whose fetch hangs it never answers,
    whatever the accounts after it would give; the store is unchanged. *)
Theorem refresh_stops_at_first_failure pre acc post :
  Forall (fun a => exists ms,
            fetchEmails decode (client (tokens a)) (order (tokens a)) =
            Promise.Fulfilled ms) pre ->
  (forall e,
     fetchEmails decode (client (tokens acc)) (order (tokens acc)) =
     Promise.Rejected e ->
     refreshAndListAll decode client order (pre ++ acc :: post) =
     (pre ++ acc :: post, Status500)) /\
  (fetchEmails decode (client (tokens acc)) (order (tokens acc)) =
   Promise.Pending ->
   refreshAndListAll decode client order (pre ++ acc :: post) =
   (pre ++ acc :: post, NoResponse)).
Proof.
  intros Hpre.
  destruct (refresh_loop_stops pre acc post [] Hpre) as [Hrej Hpend].
  unfold refreshAndListAll. split.
  - intros e He. by rewrite (Hrej e He).
  - intros He. by rewrite (Hpend He).
Qed.

End StoreMore.

(** ** [GET /api/emails] with interleaved store operations *)

Section LiveRefreshFacts.

Context {Tokens Err : Type}.
Variable decode : string -> string.
Variable client : Tokens -> Gmail Err.
Variable order : Tokens -> list nat.

Implicit Types (st : LiveStore Tokens) (acc : Account Tokens).
Implicit Types (events during : list (StoreEvent Tokens)).





(** Without interleaved operations the handler is [refreshAndListAll]. *)
Lemma refreshAndListAll_live_serial (store : list (Account Tokens)) :
  refreshAndListAll_live decode client order [] store =
  refreshAndListAll decode client order store.
Proof. reflexivity. Qed.


End LiveRefreshFacts.

(** ** Route handlers *)

Lemma append_cons (c : ascii) (a b : string) :
  (String c a ++ b)%string = String c (a ++ b)%string.
Proof. reflexivity. Qed.

Lemma append_empty (b : string) : ("" ++ b)%string = b.
Proof. reflexivity. Qed.

Lemma prefix_append (sub s : string) :
  String.prefix sub s = true <-> exists b, s = (sub ++ b)%string.
Proof.
  revert s. induction sub as [|c sub IH]; intros s.
  - simpl. split; [|by destruct s]. intros _. by exists s.
  - destruct s as [|c' s]; simpl.
    + split; [done|]. intros [b Hb]. by rewrite append_cons in Hb.
    + destruct (ascii_dec c c') as [->|Hne].
      * rewrite IH. split; intros [b Hb]; exists b.
        -- rewrite append_cons. congruence.
        -- rewrite append_cons in Hb. congruence.
      * split; [done|]. intros [b Hb].
        rewrite append_cons in Hb. congruence.
Qed.

Lemma includes_unfold (s sub : string) :
  includes s sub =
  if String.prefix sub s then true
  else match s with
       | EmptyString => false
       | String _ rest => includes rest sub
       end.
Proof. by destruct s. Qed.

Lemma includes_substring (s sub : string) :
  includes s sub = true <-> exists a b, s = (a ++ sub ++ b)%string.
Proof.
  split.
  - induction s as [|c s IH]; rewrite includes_unfold.
    + destruct (String.prefix sub "") eqn:Hp; [|done].
      intros _. apply prefix_append in Hp as [b Hb]. by exists "", b.
    + destruct (String.prefix sub (String c s)) eqn:Hp.
      * intros _. apply prefix_append in Hp as [b Hb]. by exists "", b.
      * intros H. destruct (IH H) as (a & b & ->).
        by exists (String c a), b.
  - intros (a & b & ->). induction a as [|c a IH].
    + rewrite append_empty, includes_unfold.
      by rewrite (proj2 (prefix_append sub (sub ++ b)%string))
        by (by exists b).
    + rewrite append_cons, includes_unfold.
      by destruct (String.prefix sub (String c (a ++ sub ++ b))).
Qed.

(** A request counts as local exactly when its [host] header is present
    and contains [localhost] or [127.0.0.1] somewhere, not only when it is
    that host. *)
Theorem isLocal_iff_host_contains req :
  isLocal req = true <->
  exists h a b,
    host req = Some h /\
    (h = (a ++ "localhost" ++ b)%string \/
     h = (a ++ "127.0.0.1" ++ b)%string).
Proof.
  unfold isLocal. destruct (host req) as [h|].
  - rewrite orb_true_iff, !includes_substring. split.
    + intros [(a & b & ->)|(a & b & ->)]; eexists _, a, b; auto.
    + intros (h' & a & b & [= <-] & [-> | ->]); eauto.
  - split; [done|]. by intros (h & a & b & ? & _).
Qed.

Section HandlerFacts.

Context {Tokens Err : Type}.
Variable decode : string -> string.
Variable oauth : OAuth Tokens Err.
Variable client : Tokens -> Gmail Err.
Variable order : Tokens -> list nat.

Local Abbreviation Store := (list (Account Tokens)).
Implicit Types (store : Store) (req : Request).

(** The OAuth callback of the multi-account variant changes the store only
    when it redirects: on every other answer the store is as before, at
    most one account is ever added, at the end and with an email that was
    not stored, and the store keeps at most one account per email. *)
Theorem callback_changes_store_only_on_redirect req store :
  (fst (callback_handler decode oauth client order req store) = store \/
   exists acc,
     fst (callback_handler decode oauth client order req store) =
       store ++ [acc] /\
     email acc ∉ map email store) /\
  ((forall url,
      snd (callback_handler decode oauth client order req store) <>
      Redirect url) ->
   fst (callback_handler decode oauth client order req store) = store) /\
  (unique_emails store ->
   unique_emails (fst (callback_handler decode oauth client order req store))).
Proof.
  unfold callback_handler.
  destruct (query_code req) as [code|]; [|by auto].
  destruct (String.eqb code ""); [by auto|].
  destruct (getToken oauth code) as [e|t]; [by auto|].
  destruct (userinfo_get oauth t) as [e|em]; [by auto|].
  destruct (fetchEmails decode (client t) (order t)) as [|e|ms];
    [by auto | by auto |].
  simpl. repeat split.
  - destruct (decide (em ∈ map email store)) as [Hin|Hnin].
    + left. by apply upsert_present.
    + right. exists (mkAccount em t ms). split; [|done].
      by apply upsert_absent.
  - intros H. by destruct (H (frontendRedirect req)).
  - apply upsert_unique.
Qed.

(** A redirect of the OAuth callback means that the code was exchanged,
    the profile was read and the inbox was fetched, all with success; the
    account of the profile's email is then in the store, and the redirect
    goes to the inbox page of the frontend. *)
Theorem callback_redirect_means_connected req store url :
  snd (callback_handler decode oauth client order req store) = Redirect url ->
  exists code t em ms,
    query_code req = Some code /\ code <> "" /\
    getToken oauth code = inr t /\ userinfo_get oauth t = inr em /\
    fetchEmails decode (client t) (order t) = Promise.Fulfilled ms /\
    fst (callback_handler decode oauth client order req store) =
      upsertIfAbsent em t ms store /\
    em ∈ map email
           (fst (callback_handler decode oauth client order req store)) /\
    url = frontendRedirect req.
Proof.
  unfold callback_handler.
  destruct (query_code req) as [code|]; [|done].
  destruct (String.eqb_spec code "") as [|Hcode]; [done|].
  destruct (getToken oauth code) as [e|t] eqn:Ht; [done|].
  destruct (userinfo_get oauth t) as [e|em] eqn:Hu; [done|].
  destruct (fetchEmails decode (client t) (order t)) as [|e|ms] eqn:Hf;
    [done | done |].
  simpl. intros [= <-]. exists code, t, em, ms.
  repeat split; try done. apply upsert_email_present.
Qed.

(** The OAuth callback answers 400 exactly when the request carries no
    authorization code, or an empty one. *)
Theorem callback_400_iff_code_missing req store :
  snd (callback_handler decode oauth client order req store) =
    Send 400 "Missing authorization code." <->
  Js.truthy (query_code req) = false.
Proof.
  unfold callback_handler, Js.truthy.
  destruct (query_code req) as [code|]; [|done].
  destruct (String.eqb code ""); [done|].
  destruct (getToken oauth code) as [e|t]; [done|].
  destruct (userinfo_get oauth t) as [e|em]; [done|].
  by destruct (fetchEmails decode (client t) (order t)).
Qed.

(** The OAuth callback of the session variant leaves the session user as
    it is unless it redirects, and when it redirects the session user is
    the one of the exchanged code, whoever was logged in before. *)
Theorem session_callback_replaces_user req user :
  ((forall url, snd (session_callback_handler oauth req user) <> Redirect url) ->
   fst (session_callback_handler oauth req user) = user) /\
  (forall url,
     snd (session_callback_handler oauth req user) = Redirect url ->
     exists code t em,
       query_code req = Some code /\ getToken oauth code = inr t /\
       userinfo_get oauth t = inr em /\
       fst (session_callback_handler oauth req user) =
         Some (mkSessionUser em t)).
Proof.
  unfold session_callback_handler.
  destruct (query_code req) as [code|]; [|by split].
  destruct (String.eqb code ""); [by split|].
  destruct (getToken oauth code) as [e|t] eqn:Ht; [by split|].
  destruct (userinfo_get oauth t) as [e|em] eqn:Hu; [by split|].
  simpl. split.
  - intros H. by destruct (H (frontendRedirect req)).
  - intros url _. by exists code, t, em.
Qed.

(** [GET /api/emails] of the session variant answers 401 exactly when no
    user is logged in, and an answer with accounts holds a single entry:
    the email of the session user and the messages fetched with the
    session user's credential. *)
Theorem session_emails_reply user :
  (session_emails_handler decode client order user =
     SendError 401 "Not logged in" <-> user = None) /\
  (forall l,
     session_emails_handler decode client order user = SendAccounts l ->
     exists u ms,
       user = Some u /\
       fetchEmails decode (client (user_tokens u)) (order (user_tokens u)) =
         Promise.Fulfilled ms /\
       l = [(user_email u, ms)]).
Proof.
  unfold session_emails_handler. destruct user as [u|]; [|by split].
  destruct (fetchEmails decode (client (user_tokens u))
                        (order (user_tokens u))) as [|e|ms] eqn:Hf.
  - by split.
  - by split.
  - split; [by split|]. intros l [= <-]. by exists u, ms.
Qed.

End HandlerFacts.

(** ** Concrete runs of the further properties *)

Lemma parts_without_text_give_empty_bodies_witness :
  textPlain (extract Base64.decode sample_nested) = "" /\
  textHtml (extract Base64.decode sample_nested) = "".
Proof.
  apply (parts_without_text_give_empty_bodies Base64.decode sample_nested
           sample_nested_payload sample_container [] eq_refl eq_refl).
  repeat constructor; discriminate.
Defined.

Lemma fetch_empty_listing_witness :
  fetchEmails Base64.decode sample_gmail_empty [2; 0] = Promise.Fulfilled [].
Proof.
  apply (fetch_empty_listing Base64.decode sample_gmail_empty [2; 0]).
  right. reflexivity.
Defined.

Lemma fetch_fulfilled_only_when_complete_witness :
  (forall i, i < length sample_msgs -> i ∈ [1; 0; 2]) /\
  Forall2 (fun m r => exists d, messages_get sample_gmail (id m) = inr d /\
                                r = Some (extract Base64.decode d))
          sample_msgs sample_fetched.
Proof.
  apply (fetch_fulfilled_only_when_complete Base64.decode sample_gmail
           sample_msgs [1; 0; 2] sample_fetched).
  - reflexivity.
  - apply (bool_decide_unpack _). reflexivity.
  - reflexivity.
Defined.

Lemma fetch_rejection_provenance_witness :
  messages_list sample_gmail_failing = inl "timeout" \/
  exists msgs k m,
    messages_list sample_gmail_failing = inr (Some msgs) /\
    k ∈ [0; 2; 1] /\ msgs !! k = Some m /\
    messages_get sample_gmail_failing (id m) = inl "timeout".
Proof.
  apply (fetch_rejection_provenance Base64.decode sample_gmail_failing
           [0; 2; 1] "timeout").
  reflexivity.
Defined.

Lemma removeByEmail_keeps_others_witness :
  sample_account "b@example.com" ∈ removeByEmail "a@example.com" sample_store.
Proof.
  apply (proj2 (removeByEmail_keeps_others sample_store "a@example.com")).
  split.
  - apply elem_of_cons. right. apply elem_of_cons. left. reflexivity.
  - discriminate.
Defined.

Lemma removeByEmail_removes_exactly_one_witness :
  exists pre acc post,
    sample_store = pre ++ acc :: post /\ email acc = "a@example.com" /\
    removeByEmail "a@example.com" sample_store = pre ++ post.
Proof.
  apply (removeByEmail_removes_exactly_one sample_store "a@example.com").
  - apply (bool_decide_unpack _). reflexivity.
  - apply elem_of_cons. left. reflexivity.
Defined.

Lemma upsert_remove_commute_witness :
  removeByEmail "a@example.com"
    (upsertIfAbsent "c@example.com" "fresh token" [] sample_store) =
  upsertIfAbsent "c@example.com" "fresh token" []
    (removeByEmail "a@example.com" sample_store).
Proof.
  apply (upsert_remove_commute sample_store "c@example.com" "a@example.com"
           "fresh token" []).
  discriminate.
Defined.

(** The fetch for the second account is rejected; the third account is
    not reached. *)
Lemma refresh_stops_at_first_failure_witness :
  refreshAndListAll Base64.decode sample_failing_client sample_order
    (sample_store ++ [sample_account "c@example.com"]) =
  (sample_store ++ [sample_account "c@example.com"], Status500).
Proof.
  apply (proj1 (refresh_stops_at_first_failure Base64.decode
                  sample_failing_client sample_order
                  [sample_account "a@example.com"]
                  (sample_account "b@example.com")
                  [sample_account "c@example.com"]
                  ltac:(repeat constructor; eexists; reflexivity))
           "quota").
  reflexivity.
Defined.

Lemma isLocal_iff_host_contains_witness :
  isLocal (mkRequest None (Some "notlocalhost.example.org")) = true.
Proof.
  apply (proj2 (isLocal_iff_host_contains
                  (mkRequest None (Some "notlocalhost.example.org")))).
  exists "notlocalhost.example.org", "not", ".example.org".
  split; [reflexivity | left; reflexivity].
Defined.

(** An expired code: the exchange fails and the store stays as it is. *)
Lemma callback_changes_store_only_on_redirect_witness :
  fst (callback_handler Base64.decode sample_oauth sample_client sample_order
         (mkRequest (Some "expired") (Some "localhost:5000")) sample_store) =
    sample_store /\
  unique_emails
    (fst (callback_handler Base64.decode sample_oauth sample_client
            sample_order sample_request sample_store)).
Proof.
  split.
  - apply (proj1 (proj2 (callback_changes_store_only_on_redirect
                           Base64.decode sample_oauth sample_client
                           sample_order
                           (mkRequest (Some "expired")
                                      (Some "localhost:5000"))
                           sample_store))).
    intros url. discriminate.
  - apply (proj2 (proj2 (callback_changes_store_only_on_redirect
                           Base64.decode sample_oauth sample_client
                           sample_order sample_request sample_store))).
    apply (bool_decide_unpack _). reflexivity.
Defined.

(** A second login of a connected account: the redirect happens, and the
    stored account keeps its credential. *)
Lemma callback_redirect_means_connected_witness :
  exists code t em ms,
    query_code sample_request = Some code /\ code <> "" /\
    getToken sample_oauth code = inr t /\
    userinfo_get sample_oauth t = inr em /\
    fetchEmails Base64.decode (sample_client t) (sample_order t) =
      Promise.Fulfilled ms /\
    fst (callback_handler Base64.decode sample_oauth sample_client
           sample_order sample_request sample_store) =
      upsertIfAbsent em t ms sample_store /\
    em ∈ map email
           (fst (callback_handler Base64.decode sample_oauth sample_client
                   sample_order sample_request sample_store)) /\
    "http://localhost:5173/inbox" = frontendRedirect sample_request.
Proof.
  apply (callback_redirect_means_connected Base64.decode sample_oauth
           sample_client sample_order sample_request sample_store
           "http://localhost:5173/inbox").
  reflexivity.
Defined.

Example callback_keeps_credential_of_connected_account :
  callback_handler Base64.decode sample_oauth sample_client sample_order
    sample_request_deployed sample_store =
  (sample_store, Redirect "https://chatterbytefrontend.vercel.app/inbox").
Proof. reflexivity. Qed.

Lemma callback_400_iff_code_missing_witness :
  snd (callback_handler Base64.decode sample_oauth sample_client sample_order
         (mkRequest (Some "") (Some "localhost:5000")) sample_store) =
  Send 400 "Missing authorization code.".
Proof.
  apply (proj2 (callback_400_iff_code_missing Base64.decode sample_oauth
                  sample_client sample_order
                  (mkRequest (Some "") (Some "localhost:5000"))
                  sample_store)).
  reflexivity.
Defined.

Lemma session_callback_replaces_user_witness :
  exists code t em,
    query_code sample_request = Some code /\
    getToken sample_oauth code = inr t /\
    userinfo_get sample_oauth t = inr em /\
    fst (session_callback_handler sample_oauth sample_request
           (Some (mkSessionUser "b@example.com" "token of b@example.com"))) =
      Some (mkSessionUser em t).
Proof.
  apply (proj2 (session_callback_replaces_user sample_oauth sample_request
                  (Some (mkSessionUser "b@example.com"
                                       "token of b@example.com")))
           "http://localhost:5173/inbox").
  reflexivity.
Defined.

Lemma session_emails_reply_witness :
  exists u ms,
    Some (mkSessionUser "a@example.com" "token of a@example.com") = Some u /\
    fetchEmails Base64.decode (sample_client (user_tokens u))
                (sample_order (user_tokens u)) = Promise.Fulfilled ms /\
    [("a@example.com", sample_fetched)] = [(user_email u, ms)].
Proof.
  apply (proj2 (session_emails_reply Base64.decode sample_client sample_order
                  (Some (mkSessionUser "a@example.com"
                                       "token of a@example.com")))
           [("a@example.com", sample_fetched)]).
  reflexivity.
Defined.

(** The detail fetch of [m1] succeeds, that of [m3] fails, and that of
    [m2] never completes: the fetch is rejected with the error of [m3]. *)
Lemma fetch_fails_on_first_rejection_witness :
  exists pre k post m e,
    [0; 2] = pre ++ k :: post /\
    sample_msgs !! k = Some m /\
    messages_get sample_gmail_failing (id m) = inl e /\
    Forall (fun j => forall m' e',
              sample_msgs !! j = Some m' ->
              messages_get sample_gmail_failing (id m') <> inl e') pre /\
    fetchEmails Base64.decode sample_gmail_failing [0; 2] =
      Promise.Rejected e.
Proof.
  apply (fetch_fails_on_first_rejection Base64.decode sample_gmail_failing
           sample_msgs [0; 2]).
  - reflexivity.
  - apply (bool_decide_unpack _). reflexivity.
  - exists 2, (mkMsgRef "m3"), "timeout". split; [|split; reflexivity].
    apply elem_of_cons. right. apply elem_of_cons. left. reflexivity.
Defined.

Example fetch_rejected_while_another_never_completes :
  fetchEmails Base64.decode sample_gmail_failing [0; 2] =
  Promise.Rejected "timeout".
Proof. reflexivity. Qed.


(** In that run the answer lists neither the store at the start nor the
    store at the end. *)
Example refresh_answer_between_interleaved_operations :
  refreshAndListAll_live Base64.decode sample_client sample_order
    sample_interleaving sample_store =
  ([ sample_account "b@example.com"; sample_account "c@example.com" ],
   JsonAccounts [ ("a@example.com", sample_fetched);
                  ("b@example.com", sample_fetched);
                  ("c@example.com", sample_fetched) ]).
Proof. reflexivity. Qed.

(** A push after the [DELETE] goes to the new array and is not walked. *)
Example refresh_answer_after_detach :
  snd (refreshAndListAll_live Base64.decode sample_client sample_order
         [ [ EvRemove "a@example.com";
             EvUpsert "c@example.com" "token of c@example.com" [] ] ]
         sample_store) =
  JsonAccounts [ ("a@example.com", sample_fetched);
                 ("b@example.com", sample_fetched) ].
Proof. reflexivity. Qed.
